(** * ID3 decision trees of golearn: induction, prediction, pruning, forest

    Shallow embedding of [trees/id3.go] and [ensemble/randomforest.go].
    Go maps are [gmap]s; a [range] over a map visits the keys in an order
    the language leaves open, so every [range] whose result depends on the
    order takes that order as an explicit argument. *)

From Stdlib Require Import Floats ZArith.
From stdpp Require Import gmap strings list fin_maps sorting.

Local Open Scope Z_scope.

(** ** Iteration order of a Go map *)

(** A [KeyOrder] rearranges the keys of a map into the order in which one
    [range] statement visits them. *)
Definition KeyOrder : Type := list string → list string.

Definition is_order (o : KeyOrder) : Prop := ∀ l, o l ≡ₚ l.

Definition map_keys {A} (m : gmap string A) : list string := (map_to_list m).*1.

(** [for k := range m] visits [range_keys o m]. *)
Definition range_keys {A} (o : KeyOrder) (m : gmap string A) : list string :=
  o (map_keys m).

(** Go compares strings bytewise; [a > b]. *)
Definition str_gt (a b : string) : bool := String.ltb b a.

(** ** The dataset abstraction (package [base]) *)

(** Modelled from the spec: [base.Attribute] is missing from the sources. An
    attribute identifies one column; two attributes are the same column only
    when they are the same attribute, whatever their names. Stored values
    are kept as their canonical string category, so [GetStringFromSysVal]
    is the identity on cells. *)
Record Attribute : Type := mkAttribute { attr_id : nat; attr_name : string }.

#[global] Instance Attribute_eq_dec : EqDecision Attribute.
Proof. solve_decision. Defined.

Definition GetStringFromSysVal (at_ : option Attribute) (v : string) : string := v.

(** Modelled from the spec: [base.Instances] is missing from the sources. An
    ordered sequence of rows, each a vector over [attributes]; the column
    [ClassIndex] holds the class. *)
Record Instances : Type := mkInstances {
  attributes : list Attribute;
  ClassIndex : nat;
  storage : list (list string)
}.

Definition Rows (inst : Instances) : nat := length (storage inst).

Definition GetAttributeCount (inst : Instances) : Z :=
  Z.of_nat (length (attributes inst)).

Definition cell (j : nat) (row : list string) : string := default EmptyString (row !! j).

(** [inst.Get(i, j)] *)
Definition Get (inst : Instances) (i j : nat) : string :=
  cell j (default [] (storage inst !! i)).

Definition GetClassAttr (inst : Instances) : option Attribute :=
  attributes inst !! ClassIndex inst.

Definition GetClassAttrPtr (inst : Instances) : option Attribute := GetClassAttr inst.

Definition GetClass (inst : Instances) (row : list string) : string :=
  cell (ClassIndex inst) row.

Fixpoint index_of (a : Attribute) (l : list Attribute) : option nat :=
  match l with
  | [] => None
  | b :: l' => if decide (b = a) then Some 0%nat else S <$> index_of a l'
  end.

(** Modelled from the spec: attribute to column resolution with an explicit
    not-found result ([None] stands for Go's [-1]); a nil attribute is never
    found. *)
Definition GetAttrIndex (inst : Instances) (of_ : option Attribute) : option nat :=
  match of_ with
  | None => None
  | Some a => index_of a (attributes inst)
  end.

(** Modelled from the spec: the class-value histogram of the rows. Only
    values that occur get an entry. *)
Definition count_value (c : string) (m : gmap string Z) : gmap string Z :=
  <[c := default 0 (m !! c) + 1]> m.

Definition CountClassValues (inst : Instances) : gmap string Z :=
  foldr (λ row m, count_value (GetClass inst row) m) ∅ (storage inst).

(** Modelled from the spec: rows grouped by the string value of one column,
    every row in exactly one group, no group empty. The column split on is
    dropped from the groups, which is what makes the attribute space
    shrink. *)
Definition group_rows (j : nat) (rows : list (list string)) : gmap string (list (list string)) :=
  foldr (λ row m, <[cell j row := delete j row :: default [] (m !! cell j row)]> m) ∅ rows.

Definition drop_column (inst : Instances) (j : nat) (rows : list (list string)) : Instances :=
  {| attributes := delete j (attributes inst);
     ClassIndex := if decide (j < ClassIndex inst)%nat then pred (ClassIndex inst) else ClassIndex inst;
     storage := rows |}.

(** [None] is the contract violation (a panic) of decomposing on an attribute that the
    instances do not have. *)
Definition DecomposeOnAttributeValues (inst : Instances) (at_ : Attribute)
  : option (gmap string Instances) :=
  match GetAttrIndex inst (Some at_) with
  | None => None
  | Some j => Some (drop_column inst j <$> group_rows j (storage inst))
  end.

(** ** Tree nodes *)

Inductive NodeType : Type := LeafNode | RuleNode.

#[global] Instance NodeType_eq_dec : EqDecision NodeType.
Proof. solve_decision. Defined.

#[warnings="-register-all"]
Inductive DecisionTreeNode : Type := mkNode {
  Type_ : NodeType;
  Children : option (gmap string DecisionTreeNode);
  SplitAttr : option Attribute;
  ClassDist : gmap string Z;
  Class : string;
  ClassAttr : option Attribute
}.

(** [RuleGenerator.GenerateSplitAttribute]; [None] is Go's nil. *)
Definition RuleGenerator : Type := Instances → option Attribute.

Definition with_children (d : DecisionTreeNode) (ch : option (gmap string DecisionTreeNode))
  : DecisionTreeNode :=
  {| Type_ := Type_ d; Children := ch; SplitAttr := SplitAttr d;
     ClassDist := ClassDist d; Class := Class d; ClassAttr := ClassAttr d |}.

Definition with_split (d : DecisionTreeNode) (a : option Attribute) : DecisionTreeNode :=
  {| Type_ := Type_ d; Children := Children d; SplitAttr := a;
     ClassDist := ClassDist d; Class := Class d; ClassAttr := ClassAttr d |}.

Fixpoint height (d : DecisionTreeNode) : nat :=
  match Children d with
  | None => 0%nat
  | Some ch => S (map_fold (λ _ c acc, height c `max` acc)%nat 0%nat ch)
  end.

(** ** Induction: [InferID3Tree] *)

Inductive result (A : Type) : Type :=
  | Ok (a : A)
  | Panic      (* a Go panic: contract violation or nil dereference *)
  | OutOfFuel. (* the model ran out of steps; never the code's answer *)
Arguments Ok {A} a.
Arguments Panic {A}.
Arguments OutOfFuel {A}.

#[global] Instance result_ret : MRet result := λ A a, Ok a.

#[global] Instance result_bind : MBind result := λ A B f r,
  match r with
  | Ok a => f a
  | Panic => Panic
  | OutOfFuel => OutOfFuel
  end.

#[global] Instance result_fmap : FMap result := λ A B f r,
  match r with
  | Ok a => Ok (f a)
  | Panic => Panic
  | OutOfFuel => OutOfFuel
  end.

(** A panic where the callee has nothing to return. *)
Definition or_panic {A} (o : option A) : result A :=
  match o with Some a => Ok a | None => Panic end.

Definition is_ok {A} (r : result A) : bool :=
  match r with Ok _ => true | _ => false end.

Definition get_ok {A} (r : result A) : option A :=
  match r with Ok a => Some a | _ => None end.

Definition is_violation {A} (r : result A) : bool :=
  match r with Panic => true | _ => false end.

(** The single-class loop [for i := range classes { maxClass = i }]. *)
Definition lastKey (ks : list string) : string := foldl (λ _ i, i) EmptyString ks.

(** The majority loop: [if classes[i] > maxVal { maxClass = i; maxVal = classes[i] }]. *)
Definition maxStep (classes : gmap string Z) (acc : Z * string) (i : string) : Z * string :=
  if decide (acc.1 < default 0 (classes !! i)) then (default 0 (classes !! i), i) else acc.

Definition maxLoop (classes : gmap string Z) (ks : list string) (acc : Z * string) : Z * string :=
  foldl (maxStep classes) acc ks.

Definition maxClass (o : KeyOrder) (classes : gmap string Z) : string :=
  (maxLoop classes (range_keys o classes) (0, EmptyString)).2.

(** Gathers the children built for the groups: a panic in any child is a
    panic of the whole call. *)
Definition gather (rs : gmap string (result DecisionTreeNode))
  : result (gmap string DecisionTreeNode) :=
  if forallb (λ kr, is_ok kr.2) (map_to_list rs) then Ok (omap get_ok rs)
  else if existsb (λ kr, is_violation kr.2) (map_to_list rs) then Panic
  else OutOfFuel.

(** The iteration orders of one run of the induction: one per node, the
    node named by the branch values on the way to it. *)
Definition InferOrders : Type := list string → KeyOrder.

Definition below (k : string) {A} (os : list string → A) : list string → A :=
  λ p, os (k :: p).

Fixpoint InferID3Tree_rec (fuel : nat) (os : InferOrders) (from : Instances)
    (with_ : RuleGenerator) : result DecisionTreeNode :=
  match fuel with
  | O => OutOfFuel
  | S fuel' =>
    let classes := CountClassValues from in
    if decide (size classes = 1%nat) then
      Ok (mkNode LeafNode None None classes (lastKey (range_keys (os []) classes))
                 (GetClassAttrPtr from))
    else
      let maxClass := maxClass (os []) classes in
      if decide (GetAttributeCount from = 2) then
        Ok (mkNode LeafNode None None classes maxClass (GetClassAttrPtr from))
      else
        let ret := mkNode RuleNode None None classes maxClass (GetClassAttrPtr from) in
        match with_ from with
        | None => Ok ret
        | Some splitOnAttribute =>
          splitInstances ← or_panic (DecomposeOnAttributeValues from splitOnAttribute);
          children ← gather (map_imap (λ k newInstances,
                       Some (InferID3Tree_rec fuel' (below k os) newInstances with_))
                       splitInstances);
          Ok (with_split (with_children ret (Some children)) (Some splitOnAttribute))
        end
  end.

(** Every decomposition drops a column, so one unit of fuel per attribute
    and one for the node itself is enough (see [InferID3Tree_fuel]). *)
Definition InferID3Tree (os : InferOrders) (from : Instances) (with_ : RuleGenerator)
  : result DecisionTreeNode :=
  InferID3Tree_rec (S (length (attributes from))) os from with_.

(** ** Prediction: [DecisionTreeNode.Predict] *)

(** The fallback loop over the children of a node that has no child for
    [classVar]: [bestChild = c; if c > classVar { break }]. *)
Fixpoint bestChildLoop (ks : list string) (classVar best : string) : string :=
  match ks with
  | [] => best
  | c :: ks' => if str_gt c classVar then c else bestChildLoop ks' classVar c
  end.

Definition bestChild (ks : list string) (classVar : string) : string :=
  bestChildLoop ks classVar EmptyString.

(** One turn of the inner [for] loop at node [cur] for row [i]. *)
Inductive step : Type :=
  | Emit (label : string)
  | Descend (next : DecisionTreeNode)
  | NilDeref.

Definition Predict_step (o : KeyOrder) (what : Instances) (i : nat)
    (cur : DecisionTreeNode) : step :=
  match Children cur with
  | None => Emit (Class cur)
  | Some children =>
    let at_ := SplitAttr cur in
    match GetAttrIndex what at_ with
    | None => Emit (Class cur)
    | Some j =>
      let classVar := GetStringFromSysVal at_ (Get what i j) in
      match children !! classVar with
      | Some next => Descend next
      | None =>
        match children !! bestChild (range_keys o children) classVar with
        | Some next => Descend next
        | None => NilDeref
        end
      end
    end
  end.

(** The inner [for] loop; [os n] orders the fallback [range] of turn [n]. *)
Fixpoint Predict_loop (fuel : nat) (os : nat → KeyOrder) (what : Instances) (i : nat)
    (cur : DecisionTreeNode) (turn : nat) : result string :=
  match fuel with
  | O => OutOfFuel
  | S fuel' =>
    match Predict_step (os turn) what i cur with
    | Emit label => Ok label
    | Descend next => Predict_loop fuel' os what i next (S turn)
    | NilDeref => Panic
    end
  end.

(** The node at which the same loop breaks, whose [Class] it emits. *)
Fixpoint Predict_last (fuel : nat) (os : nat → KeyOrder) (what : Instances) (i : nat)
    (cur : DecisionTreeNode) (turn : nat) : result DecisionTreeNode :=
  match fuel with
  | O => OutOfFuel
  | S fuel' =>
    match Predict_step (os turn) what i cur with
    | Emit _ => Ok cur
    | Descend next => Predict_last fuel' os what i next (S turn)
    | NilDeref => Panic
    end
  end.

(** The orders of one [Predict] call: by row, then by turn of its loop. *)
Definition PredictOrders : Type := nat → nat → KeyOrder.

Fixpoint sequence {A} (rs : list (result A)) : result (list A) :=
  match rs with
  | [] => Ok []
  | r :: rs' => a ← r; l ← sequence rs'; Ok (a :: l)
  end.

Definition Predict_labels (os : PredictOrders) (d : DecisionTreeNode) (what : Instances)
  : result (list string) :=
  sequence (imap (λ i _, Predict_loop (S (height d)) (os i) what i d 0) (storage what)).

(** Modelled from the spec: [base.NewInstances] with the class attribute as
    its only column and [SetAttrStr] writing the label of each row. *)
Definition predictions_of (what : Instances) (labels : list string) : Instances :=
  {| attributes := option_list (GetClassAttr what); ClassIndex := 0;
     storage := (λ l, [l]) <$> labels |}.

Definition Predict (os : PredictOrders) (d : DecisionTreeNode) (what : Instances)
  : result Instances :=
  predictions_of what <$> Predict_labels os d what.

(** ** The evaluator (package [evaluation]) *)

(** Modelled from the spec: [eval.GetConfusionMatrix] is missing from the
    sources; the (ground truth, prediction) pairs, row by row. *)
Definition GetConfusionMatrix (ref gen : Instances) : list (string * string) :=
  zip (GetClass ref <$> storage ref) (GetClass gen <$> storage gen).

(** Modelled from the spec: [eval.GetAccuracy] is missing from the sources;
    correct over total. The quotient is kept exact; an empty matrix gives
    0/0, Go's NaN, which is less than nothing. *)
Record Accuracy : Type := mkAccuracy { correct : nat; total : nat }.

Definition GetAccuracy (cf : list (string * string)) : Accuracy :=
  {| correct := length (filter (λ p, p.1 = p.2) cf); total := length cf |}.

Definition acc_lt (a b : Accuracy) : bool :=
  bool_decide (0 < total a)%nat && bool_decide (0 < total b)%nat &&
  bool_decide (correct a * total b < correct b * total a)%nat.

Definition computeAccuracy (predictions from : Instances) : Accuracy :=
  GetAccuracy (GetConfusionMatrix from predictions).

(** ** Pruning: [DecisionTreeNode.Prune] *)

(** The orders of one [Prune] call: the [Predict] calls of the node named by
    its path. *)
Definition PruneOrders : Type := list string → PredictOrders.

Fixpoint Prune (os : PruneOrders) (d : DecisionTreeNode) (using_ : Instances)
  : result DecisionTreeNode :=
  match Children d with
  | None => Ok d
  | Some children =>
    match SplitAttr d with
    | None => Ok d
    | Some at_ =>
      sub ← or_panic (DecomposeOnAttributeValues using_ at_);
      pruned ← gather (map_imap (λ k child, Some
                 match sub !! k with
                 | None => Ok child
                 | Some s => Prune (below k os) child s
                 end) children);
      let d1 := with_children d (Some pruned) in
      p1 ← Predict (os []) d1 using_;
      let baselineAccuracy := computeAccuracy p1 using_ in
      let d0 := with_children d None in
      p0 ← Predict (os []) d0 using_;
      let newAccuracy := computeAccuracy p0 using_ in
      Ok (if acc_lt newAccuracy baselineAccuracy then d1 else d0)
    end
  end.

(** ** Rendering: [getNestedString] and [String] *)

Definition tab : string := String (Ascii.ascii_of_nat 9) EmptyString.
Definition newline : string := String (Ascii.ascii_of_nat 10) EmptyString.

(** The prefix [tmp]: [level] tabs. *)
Fixpoint tabs (level : nat) : string :=
  match level with
  | O => EmptyString
  | S n => tab +:+ tabs n
  end.

(** The order of [sort.Strings]: bytewise, ascending. *)
Definition str_le (a b : string) : Prop := String.leb a b = true.

#[global] Instance str_le_dec : RelDecision str_le.
Proof. intros a b. unfold str_le. apply _. Defined.

Definition sort_Strings (keys : list string) : list string := merge_sort str_le keys.

(** [Attribute.GetName]. *)
Definition GetName (a : Attribute) : string := attr_name a.

(** The orders of one rendering: one per node, the node named by its path. *)
Definition RenderOrders : Type := list string → KeyOrder.

(** The keys are gathered in the order of the map iteration and sorted
    before the children are written. Calling [GetName] on a nil split
    attribute panics. *)
Fixpoint getNestedString (os : RenderOrders) (d : DecisionTreeNode) (level : nat)
  : result string :=
  let tmp := tabs level in
  match Children d with
  | None => Ok (tmp +:+ "Leaf(" +:+ Class d +:+ ")")
  | Some children =>
    name ← or_panic (GetName <$> SplitAttr d);
    let keys := sort_Strings (range_keys (os []) children) in
    let nested := map_imap (λ k child,
                    Some (getNestedString (below k os) child (S level))) children in
    foldl (λ buf k,
             b ← buf;
             s ← default Panic (nested !! k);
             Ok (b +:+ newline +:+ tmp +:+ tab +:+ k +:+ newline +:+ s))
          (Ok (tmp +:+ "Rule(" +:+ name +:+ ")")) keys
  end.

(** [DecisionTreeNode.String] *)
Definition String_ (os : RenderOrders) (d : DecisionTreeNode) : result string :=
  getNestedString os d 0.

(** ** The tree orchestrator: [ID3DecisionTree] *)

Record ID3DecisionTree : Type := mkID3DecisionTree {
  Root : option DecisionTreeNode;
  PruneSplit : float
}.

Definition NewID3DecisionTree (prune : float) : ID3DecisionTree :=
  {| Root := None; PruneSplit := prune |}.

Definition set_root (t : ID3DecisionTree) (root : DecisionTreeNode) : ID3DecisionTree :=
  {| Root := Some root; PruneSplit := PruneSplit t |}.

(** The guard of [Fit]: [t.PruneSplit > 0.001], on IEEE doubles. *)
#[warnings="-inexact-float"]
Definition prunes (t : ID3DecisionTree) : bool := PrimFloat.ltb 0.001%float (PruneSplit t).

Section Orchestrator.

(** The information-gain generator and the train/test split are not in
    the sources; [Fit] is modelled for any of them. *)
Variable InformationGainRuleGenerator : RuleGenerator.
Variable InstancesTrainTestSplit : Instances → float → Instances * Instances.

Definition Fit (io : InferOrders) (po : PruneOrders) (t : ID3DecisionTree)
    (on : Instances) : result ID3DecisionTree :=
  let rule := InformationGainRuleGenerator in
  if prunes t then
    let '(trainData, testData) := InstancesTrainTestSplit on (PruneSplit t) in
    root ← InferID3Tree io trainData rule;
    root' ← Prune po root testData;
    Ok (set_root t root')
  else
    root ← InferID3Tree io on rule;
    Ok (set_root t root).

(** [ID3DecisionTree.Predict]; a tree that was never fitted has a nil root,
    on which [Predict] is still called. *)
Definition ID3_Predict (os : PredictOrders) (t : ID3DecisionTree) (what : Instances)
  : result Instances :=
  match Root t with
  | Some root => Predict os root what
  | None =>
    (* the nil root is only dereferenced inside the loop over the rows *)
    if decide (Rows what = 0%nat) then Ok (predictions_of what []) else Panic
  end.

End Orchestrator.

(** ** The ensemble: [RandomForest] *)

(** Modelled from the spec: [meta.BaggedModel] is missing from the sources;
    the registered member models and the feature-subsample size. *)
Record BaggedModel : Type := mkBaggedModel {
  Models : list ID3DecisionTree;
  RandomFeatures : Z
}.

Definition AddModel (b : BaggedModel) (m : ID3DecisionTree) : BaggedModel :=
  {| Models := Models b ++ [m]; RandomFeatures := RandomFeatures b |}.

Record RandomForest : Type := mkRandomForest {
  ForestSize : Z;
  Features : Z;
  Model : option BaggedModel
}.

Definition NewRandomForest (forestSize features : Z) : RandomForest :=
  {| ForestSize := forestSize; Features := features; Model := None |}.

Section Ensemble.

(** The aggregator's training and vote combination, external. *)
Variable BaggedModel_Fit : BaggedModel → Instances → result BaggedModel.
Variable BaggedModel_Predict : BaggedModel → Instances → result Instances.

(** The loop [for i := 0; i < f.ForestSize; i++] of [Fit]. *)
Definition add_trees (n : nat) (b : BaggedModel) : BaggedModel :=
  Nat.iter n (λ b', AddModel b' (NewID3DecisionTree 0%float)) b.

Definition registered (f : RandomForest) : BaggedModel :=
  add_trees (Z.to_nat (ForestSize f)) {| Models := []; RandomFeatures := Features f |}.

Definition RandomForest_Fit (f : RandomForest) (on : Instances) : result RandomForest :=
  m ← BaggedModel_Fit (registered f) on;
  Ok {| ForestSize := ForestSize f; Features := Features f; Model := Some m |}.

Definition RandomForest_Predict (f : RandomForest) (with_ : Instances) : result Instances :=
  m ← or_panic (Model f); BaggedModel_Predict m with_.

End Ensemble.

(** ** Notions used to state the properties *)

(** [l] is an entry of the histogram with the highest count. *)
Definition top_count (classes : gmap string Z) (l : string) : Prop :=
  ∃ n, classes !! l = Some n ∧ ∀ k m, classes !! k = Some m → m ≤ n.

(** [l] is the first of the keys [ks], in that order, with the highest
    count: every key visited before it has a strictly smaller count. *)
Definition first_top (classes : gmap string Z) (ks : list string) (l : string) : Prop :=
  top_count classes l ∧
  ∃ pre post, ks = pre ++ l :: post ∧
    ∀ k, k ∈ pre → default 0 (classes !! k) < default 0 (classes !! l).

(** [k] is the key the fallback loop of [Predict] ends on when it visits
    [ks] for the value [v]: the first key visited that is greater than [v],
    or the last key visited when none is. *)
Definition fallback_choice (ks : list string) (v k : string) : Prop :=
  (∃ pre post, ks = pre ++ k :: post ∧ str_gt k v = true ∧
     ∀ c, c ∈ pre → str_gt c v = false) ∨
  (∃ pre, ks = pre ++ [k] ∧ ∀ c, c ∈ ks → str_gt c v = false).

(** Every children map of the tree that is not nil has a child. *)
#[warnings="-register-all"]
Inductive children_nonempty : DecisionTreeNode → Prop :=
  | children_nonempty_node d :
      (∀ ch, Children d = Some ch →
         ch ≠ ∅ ∧ ∀ k c, ch !! k = Some c → children_nonempty c) →
      children_nonempty d.

(** [d'] is [d] with at most the [Children] fields changed: node by node
    the other fields are those of [d], and a children map of [d'] has the
    keys of the one of [d] it comes from. *)
#[warnings="-register-all"]
Inductive only_children_changed : DecisionTreeNode → DecisionTreeNode → Prop :=
  | only_children_changed_node d d' :
      Type_ d' = Type_ d →
      SplitAttr d' = SplitAttr d →
      ClassDist d' = ClassDist d →
      Class d' = Class d →
      ClassAttr d' = ClassAttr d →
      (∀ ch', Children d' = Some ch' →
         ∃ ch, Children d = Some ch ∧
               ∀ k, option_Forall2 only_children_changed (ch !! k) (ch' !! k)) →
      only_children_changed d d'.

(** The children of a node after the recursive calls of [Prune] on the
    validation groups [sub]: a child with no group is left as it is. *)
Definition children_pruned (os : PruneOrders) (sub : gmap string Instances)
    (children pruned : gmap string DecisionTreeNode) : Prop :=
  ∀ k, match children !! k with
       | None => pruned !! k = None
       | Some child =>
         ∃ child', pruned !! k = Some child' ∧
           match sub !! k with
           | None => child' = child
           | Some s => Prune (below k os) child s = Ok child'
           end
       end.

(** The validation rows [u] are routed through the tree as [Prune] routes
    them: at every node they reach that has children and a split
    attribute, the attribute is a column of the rows other than the class,
    and every group of the decomposition on it has a child under its
    value, to which the group is routed in turn. *)
#[warnings="-register-all"]
Inductive routed : DecisionTreeNode → Instances → Prop :=
  | routed_leaf d u : Children d = None → routed d u
  | routed_no_split d u : SplitAttr d = None → routed d u
  | routed_rule d u children at_ j sub :
      Children d = Some children →
      SplitAttr d = Some at_ →
      GetAttrIndex u (Some at_) = Some j →
      j ≠ ClassIndex u →
      DecomposeOnAttributeValues u at_ = Some sub →
      (∀ k s, sub !! k = Some s → ∃ child, children !! k = Some child ∧ routed child s) →
      routed d u.

#[global] Instance result_eq_dec {A} `{EqDecision A} : EqDecision (result A).
Proof. solve_decision. Defined.

(** The rows [u] cut down to the one row [r]. *)
Definition single (u : Instances) (r : list string) : Instances :=
  {| attributes := attributes u; ClassIndex := ClassIndex u; storage := [r] |}.

(** The label [Predict] gives the row [r] of [u], and the number of rows of
    [u] whose label is their class. *)
Definition row_label (d : DecisionTreeNode) (u : Instances) (r : list string) : result string :=
  Predict_loop (S (height d)) (λ _ l, l) (single u r) 0 d 0.

Definition hits (d : DecisionTreeNode) (u : Instances) : nat :=
  length (filter (λ r, row_label d u r = Ok (GetClass u r)) (storage u)).

(** A row [r] over the columns [U] shows, for every column of [S], the
    cell that [r'] has there. *)
Definition projects (U S : list Attribute) (r r' : list string) : Prop :=
  ∀ b j', index_of b S = Some j' → ∃ j, index_of b U = Some j ∧ cell j r = cell j' r'.

(** One row of [u] seen through the rows [U]: row [i] of [U] shows the
    cells of [r'] for the columns of [u]. *)
Definition view (U : Instances) (i : nat) (u : Instances) (r' : list string) : Prop :=
  ∃ r, storage U !! i = Some r ∧ projects (attributes U) (attributes u) r r'.

(** [n] is a node of the tree [d]: [d] itself or a node of one of its
    children. *)
#[warnings="-register-all"]
Inductive in_tree (n : DecisionTreeNode) : DecisionTreeNode → Prop :=
  | in_tree_root : in_tree n n
  | in_tree_child d ch k c :
      Children d = Some ch → ch !! k = Some c → in_tree n c → in_tree n d.

(** The shape [InferID3Tree] gives a node: children and split attribute
    come together, and a leaf has neither. *)
Definition node_ok (n : DecisionTreeNode) : Prop :=
  (Children n = None ↔ SplitAttr n = None) ∧
  (Type_ n = LeafNode → Children n = None).

(** Every node of the tree that has children has a split attribute. *)
Definition splits_named (d : DecisionTreeNode) : Prop :=
  ∀ n, in_tree n d → Children n ≠ None → SplitAttr n ≠ None.

(** Two labels that are the same, or tie for the highest count. *)
Definition tied_top (classes : gmap string Z) (a b : string) : Prop :=
  a = b ∨ (top_count classes a ∧ top_count classes b).

(** Trees that agree in everything but the labels of nodes whose histogram
    has a tie for the highest count. *)
#[warnings="-register-all"]
Inductive similar : DecisionTreeNode → DecisionTreeNode → Prop :=
  | similar_node d1 d2 :
      Type_ d1 = Type_ d2 →
      SplitAttr d1 = SplitAttr d2 →
      ClassDist d1 = ClassDist d2 →
      ClassAttr d1 = ClassAttr d2 →
      tied_top (ClassDist d1) (Class d1) (Class d2) →
      option_Forall2 (λ c1 c2 : gmap string DecisionTreeNode,
        ∀ k, option_Forall2 similar (c1 !! k) (c2 !! k)) (Children d1) (Children d2) →
      similar d1 d2.

(** ** Sample data *)

Module Sample.

Definition A : Attribute := mkAttribute 0 "A".
Definition B : Attribute := mkAttribute 1 "B".
Definition D : Attribute := mkAttribute 2 "D".
Definition C : Attribute := mkAttribute 3 "C".

(** A generator that always proposes the first column. *)
Definition first_column : RuleGenerator := λ inst, head (attributes inst).

(** A generator that never finds a split. *)
Definition no_split : RuleGenerator := λ _, None.

(** Map keys in the order the model enumerates them, and reversed. *)
Definition forwards : InferOrders := λ _ l, l.
Definition backwards : InferOrders := λ _ l, rev l.
Definition predict_forwards : PredictOrders := λ _ _ l, l.
Definition predict_backwards : PredictOrders := λ _ _ l, rev l.
Definition prune_forwards : PruneOrders := λ _ _ _ l, l.
Definition prune_backwards : PruneOrders := λ _ _ _ l, rev l.

(** Four training rows over A, B, D and the class C. *)
Definition train : Instances :=
  mkInstances [A; B; D; C] 3
    [ ["y"; "p"; "d"; "0"]; ["y"; "p"; "d"; "0"];
      ["y"; "q"; "d"; "1"]; ["x"; "p"; "d"; "0"] ].

Definition leaf (dist : list (string * Z)) (label : string) : DecisionTreeNode :=
  mkNode LeafNode None None (list_to_map dist) label (Some C).

Definition rule (dist : list (string * Z)) (label : string) (a : Attribute)
    (children : list (string * DecisionTreeNode)) : DecisionTreeNode :=
  mkNode RuleNode (Some (list_to_map children)) (Some a) (list_to_map dist) label (Some C).

(** The tree induced from [train]. *)
Definition inner : DecisionTreeNode :=
  rule [("0", 2); ("1", 1)] "0" B
    [ ("p", leaf [("0", 2)] "0"); ("q", leaf [("1", 1)] "1") ].

Definition tree : DecisionTreeNode :=
  rule [("0", 3); ("1", 1)] "0" A [ ("x", leaf [("0", 1)] "0"); ("y", inner) ].

(** Two rows with one value of A and two classes, one of each. *)
Definition tie : Instances :=
  mkInstances [A; C] 1 [ ["x"; "a"]; ["x"; "b"] ].

(** The two leaves a run can return for [tie]. *)
Definition tie_a : DecisionTreeNode := leaf [("a", 1); ("b", 1)] "a".
Definition tie_b : DecisionTreeNode := leaf [("a", 1); ("b", 1)] "b".

(** Three rows over one attribute and the class. *)
Definition two_columns : Instances :=
  mkInstances [A; C] 1 [ ["x"; "0"]; ["x"; "0"]; ["y"; "1"] ].

(** Three rows over the class alone. *)
Definition class_only : Instances :=
  mkInstances [C] 0 [ ["0"]; ["0"]; ["1"] ].

(** Validation rows: one that reaches the leaf "q" of [inner], and two
    whose value "xa" of A no child of the root was built for. *)
Definition validation : Instances :=
  mkInstances [A; B; D; C] 3
    [ ["y"; "q"; "d"; "0"]; ["xa"; "q"; "d"; "1"]; ["xa"; "q"; "d"; "1"] ].

(** No rows at all, over A, B and the class. *)
Definition no_rows : Instances := mkInstances [A; B; C] 2 [].

(** The tree induced from [no_rows]: a rule node with an empty map. *)
Definition hollow : DecisionTreeNode :=
  mkNode RuleNode (Some ∅) (Some A) ∅ "" (Some C).

(** Validation rows over B, D and the class, with values of B that
    [inner] has children for. *)
Definition seen : Instances :=
  mkInstances [B; D; C] 2 [ ["q"; "d"; "0"]; ["p"; "d"; "0"]; ["q"; "d"; "1"] ].

(** Two rows of one class over A, B and the class. *)
Definition same_class : Instances :=
  mkInstances [A; B; C] 2 [ ["x"; "p"; "1"]; ["y"; "q"; "1"] ].

(** The columns of [train] without a row. *)
Definition no_validation : Instances := mkInstances [A; B; D; C] 3 [].

(** Rows that lack the attribute A. *)
Definition without_A : Instances :=
  mkInstances [B; D; C] 2 [ ["q"; "d"; "1"] ].

End Sample.
(** * Properties *)

(** ** Trees *)

Lemma map_fold_max_ge {A} (f : A → nat) (m : gmap string A) k x :
  m !! k = Some x → (f x ≤ map_fold (λ _ c acc, f c `max` acc) 0 m)%nat.
Proof.
  revert k x.
  apply (map_fold_weak_ind (λ r (m : gmap string A), ∀ k x, m !! k = Some x → f x ≤ r)%nat).
  - intros k x H. by rewrite lookup_empty in H.
  - intros i y m' r Hi IH k x H.
    destruct (decide (i = k)) as [->|Hne].
    + rewrite lookup_insert_eq in H. injection H as ->. lia.
    + rewrite lookup_insert_ne in H by done. specialize (IH _ _ H). lia.
Qed.

Lemma height_child d ch k c :
  Children d = Some ch → ch !! k = Some c → (height c < height d)%nat.
Proof.
  intros Hd Hk. destruct d as [ty ch' sa cd cl ca]; simpl in *. subst ch'.
  pose proof (map_fold_max_ge height ch k c Hk). lia.
Qed.

(** Induction over a tree through the children of its nodes. *)
Lemma node_children_ind (P : DecisionTreeNode → Prop) :
  (∀ d, (∀ ch k c, Children d = Some ch → ch !! k = Some c → P c) → P d) →
  ∀ d, P d.
Proof.
  intros step d. remember (height d) as n eqn:Hn.
  revert d Hn. induction n as [n IH] using lt_wf_ind. intros d ->.
  apply step. intros ch k c Hch Hk.
  eapply IH; [|done]. by eapply height_child.
Qed.

(** ** The result monad and [gather] *)

Lemma gather_lookup (rs : gmap string (result DecisionTreeNode)) ch k :
  gather rs = Ok ch → ch !! k = rs !! k ≫= get_ok.
Proof.
  unfold gather. repeat case_match; try done. intros [= <-]. apply lookup_omap.
Qed.

Lemma gather_all_ok (rs : gmap string (result DecisionTreeNode)) ch k r :
  gather rs = Ok ch → rs !! k = Some r → ∃ c, r = Ok c ∧ ch !! k = Some c.
Proof.
  intros Hg Hk. pose proof (gather_lookup _ _ k Hg) as Hl. rewrite Hk in Hl. simpl in Hl.
  unfold gather in Hg. destruct (forallb _ _) eqn:Hall; [|repeat case_match; done].
  rewrite forallb_forall in Hall.
  specialize (Hall (k, r)). rewrite <- list_elem_of_In, elem_of_map_to_list in Hall.
  specialize (Hall Hk). destruct r; try done. eauto.
Qed.

Lemma gather_ok_intro (rs : gmap string (result DecisionTreeNode)) :
  (∀ k r, rs !! k = Some r → is_ok r = true) → gather rs = Ok (omap get_ok rs).
Proof.
  intros H. unfold gather. rewrite (proj2 (forallb_forall _ _)); [done|].
  intros [k r]. rewrite <- list_elem_of_In, elem_of_map_to_list. apply H.
Qed.

Lemma forallb_false {A} (f : A → bool) (l : list A) :
  forallb f l = false → ∃ x, x ∈ l ∧ f x = false.
Proof.
  induction l as [|x l IH]; simpl; [done|].
  destruct (f x) eqn:Hx; simpl.
  - intros H. destruct (IH H) as (y & Hy & Hf). exists y. split; [by right|done].
  - intros _. exists x. split; [by left|done].
Qed.

Lemma gather_fuel (rs : gmap string (result DecisionTreeNode)) :
  gather rs = OutOfFuel → ∃ k, rs !! k = Some OutOfFuel.
Proof.
  unfold gather. destruct (forallb _ _) eqn:Hall; [done|].
  destruct (existsb _ _) eqn:Hex; [done|]. intros _.
  apply forallb_false in Hall as ([k r] & Hin & Hr).
  apply elem_of_map_to_list in Hin. destruct r; simpl in Hr; try done.
  - apply not_true_iff_false in Hex. exfalso. apply Hex.
    apply existsb_exists. exists (k, Panic). split; [|done].
    by rewrite <- list_elem_of_In, elem_of_map_to_list.
  - eauto.
Qed.

Lemma gather_imap_lookup {A} (g : string → A → result DecisionTreeNode)
    (m : gmap string A) ch k :
  gather (map_imap (λ k x, Some (g k x)) m) = Ok ch →
  match m !! k with
  | Some x => ∃ c, g k x = Ok c ∧ ch !! k = Some c
  | None => ch !! k = None
  end.
Proof.
  intros Hg. destruct (m !! k) as [x|] eqn:Hk.
  - eapply gather_all_ok; [done|]. by rewrite map_lookup_imap, Hk.
  - rewrite (gather_lookup _ _ k Hg), map_lookup_imap, Hk. done.
Qed.

(** ** The dataset model *)

Lemma CountClassValues_pos from k n :
  CountClassValues from !! k = Some n → 1 ≤ n.
Proof.
  unfold CountClassValues. revert k n.
  induction (storage from) as [|row rows IH]; simpl; intros k n.
  - by rewrite lookup_empty.
  - unfold count_value at 1.
    destruct (decide (GetClass from row = k)) as [->|Hne].
    + rewrite lookup_insert_eq. intros [= <-].
      destruct (foldr _ _ rows !! k) as [m|] eqn:Hm; simpl; [|lia].
      specialize (IH _ _ Hm). lia.
    + rewrite lookup_insert_ne by done. apply IH.
Qed.

Lemma group_rows_lookup j rows k :
  group_rows j rows !! k =
    match filter (λ r, cell j r = k) rows with
    | [] => None
    | g => Some (delete j <$> g)
    end.
Proof.
  induction rows as [|row rows IH]; simpl; [by rewrite lookup_empty|].
  rewrite filter_cons. destruct (decide (cell j row = k)) as [->|Hne].
  - rewrite lookup_insert_eq, IH. simpl. by destruct (filter _ rows).
  - by rewrite lookup_insert_ne.
Qed.

Lemma index_of_lt a l j : index_of a l = Some j → (j < length l)%nat.
Proof.
  revert j. induction l as [|b l IH]; simpl; intros j; [done|].
  case_decide; [intros [= <-]; lia|].
  destruct (index_of a l) as [j'|]; simpl; [|done].
  intros [= <-]. specialize (IH _ eq_refl). lia.
Qed.

Lemma index_of_lookup a l j : index_of a l = Some j → l !! j = Some a.
Proof.
  revert j. induction l as [|b l IH]; simpl; intros j; [done|].
  case_decide; [intros [= <-]; by subst|].
  destruct (index_of a l) as [j'|]; simpl; [|done].
  intros [= <-]. by apply IH.
Qed.

Lemma Decompose_lookup from a sub k s :
  DecomposeOnAttributeValues from a = Some sub → sub !! k = Some s →
  ∃ j, GetAttrIndex from (Some a) = Some j ∧
       filter (λ r, cell j r = k) (storage from) ≠ [] ∧
       s = drop_column from j (delete j <$> filter (λ r, cell j r = k) (storage from)).
Proof.
  unfold DecomposeOnAttributeValues. destruct (GetAttrIndex _ _) as [j|] eqn:Hj; [|done].
  intros [= <-]. rewrite lookup_fmap, group_rows_lookup.
  destruct (filter _ _) eqn:Hf; simpl; [done|].
  intros [= <-]. exists j. by rewrite Hf.
Qed.

Lemma Decompose_shrinks from a sub k s :
  DecomposeOnAttributeValues from a = Some sub → sub !! k = Some s →
  S (length (attributes s)) = length (attributes from).
Proof.
  intros Hd Hk. destruct (Decompose_lookup _ _ _ _ _ Hd Hk) as (j & Hj & _ & ->).
  simpl in *. apply index_of_lt in Hj. rewrite length_delete; [lia|].
  by apply lookup_lt_is_Some.
Qed.

(** ** Induction *)

Lemma InferID3Tree_rec_fuel fuel os from g :
  (length (attributes from) < fuel)%nat → InferID3Tree_rec fuel os from g ≠ OutOfFuel.
Proof.
  revert os from. induction fuel as [|fuel IH]; intros os from Hlt; [lia|].
  simpl. case_decide; [done|]. case_decide; [done|].
  destruct (g from) as [a|]; [|done].
  destruct (DecomposeOnAttributeValues from a) as [sub|] eqn:Hd; simpl; [|done].
  destruct (gather _) as [ch| |] eqn:Hg; simpl; [done..|].
  apply gather_fuel in Hg as [k Hk]. rewrite map_lookup_imap in Hk.
  destruct (sub !! k) as [s|] eqn:Hs; simpl in Hk; [|done].
  injection Hk as Hk. apply IH in Hk; [done|].
  pose proof (Decompose_shrinks _ _ _ _ _ Hd Hs). lia.
Qed.

(** The induction never runs out of steps: it returns a tree or panics on a
    generator that names an attribute the partition does not have. *)
Lemma InferID3Tree_fuel os from g : InferID3Tree os from g ≠ OutOfFuel.
Proof. apply InferID3Tree_rec_fuel. lia. Qed.

Lemma maxLoop_spec classes ks v c :
  (maxLoop classes ks (v, c) = (v, c) ∧ ∀ k, k ∈ ks → default 0 (classes !! k) ≤ v) ∨
  (∃ pre post l, (maxLoop classes ks (v, c)).2 = l ∧
     ks = pre ++ l :: post ∧
     (maxLoop classes ks (v, c)).1 = default 0 (classes !! l) ∧
     v < default 0 (classes !! l) ∧
     (∀ k, k ∈ pre → default 0 (classes !! k) < default 0 (classes !! l)) ∧
     (∀ k, k ∈ post → default 0 (classes !! k) ≤ default 0 (classes !! l))).
Proof.
  revert v c. induction ks as [|i ks IH]; intros v c.
  - left. split; [done|]. intros k Hk. by apply elem_of_nil in Hk.
  - unfold maxLoop in *. simpl. unfold maxStep at 2 4 6. simpl.
    case_decide as Hlt; simpl in Hlt.
    + destruct (IH (default 0 (classes !! i)) i)
        as [[-> Hle]|(pre & post & l & Hl & Hks & Hr & Hv & Hpre & Hpost)].
      * right. exists [], ks, i. simpl. repeat split; try done.
        intros k Hk. by apply elem_of_nil in Hk.
      * right. exists (i :: pre), post, l.
        split; [done|]. split; [simpl; by f_equal|]. split; [done|]. split; [lia|].
        split; [|done].
        intros k [->|Hk]%elem_of_cons; [lia|by apply Hpre].
    + destruct (IH v c) as [[-> Hle]|(pre & post & l & Hl & Hks & Hr & Hv & Hpre & Hpost)].
      * left. split; [done|]. intros k [->|Hk]%elem_of_cons; [lia|by apply Hle].
      * right. exists (i :: pre), post, l.
        split; [done|]. split; [simpl; by f_equal|]. split; [done|]. split; [done|].
        split; [|done].
        intros k [->|Hk]%elem_of_cons; [lia|by apply Hpre].
Qed.

Lemma range_keys_elem {A} (o : KeyOrder) (m : gmap string A) k :
  is_order o → k ∈ range_keys o m ↔ is_Some (m !! k).
Proof.
  intros Ho. unfold range_keys, map_keys. rewrite (Ho _).
  rewrite list_elem_of_fmap. split.
  - intros ([k' x] & -> & Hin). apply elem_of_map_to_list in Hin. eauto.
  - intros [x Hx]. exists (k, x). split; [done|]. by apply elem_of_map_to_list.
Qed.

(** With an entry of positive count, the majority loop ends on the first
    key it visits that has the highest count. *)
Lemma maxClass_first_top o classes :
  is_order o → (∃ k n, classes !! k = Some n ∧ 0 < n) →
  first_top classes (range_keys o classes) (maxClass o classes).
Proof.
  intros Ho (k0 & n0 & Hk0 & Hn0). unfold maxClass.
  destruct (maxLoop_spec classes (range_keys o classes) 0 EmptyString)
    as [[_ Hle]|(pre & post & l & Hl & Hks & Hr & Hv & Hpre & Hpost)].
  - exfalso. assert (k0 ∈ range_keys o classes) as Hin by (apply range_keys_elem; eauto).
    apply Hle in Hin. rewrite Hk0 in Hin. simpl in Hin. lia.
  - rewrite Hl. clear Hl Hr.
    assert (l ∈ range_keys o classes) as Hin.
    { rewrite Hks. apply elem_of_app. right. by left. }
    apply range_keys_elem in Hin as [n Hn]; [|done].
    split.
    + exists n. split; [done|]. intros k m Hk.
      assert (k ∈ range_keys o classes) as Hkin by (apply range_keys_elem; eauto).
      rewrite Hn in Hpre, Hpost. simpl in *.
      rewrite Hks in Hkin. apply elem_of_app in Hkin as [Hkin|Hkin].
      * apply Hpre in Hkin. rewrite Hk in Hkin. simpl in *. lia.
      * apply elem_of_cons in Hkin as [->|Hkin]; [assert (m = n) by congruence; lia|].
        apply Hpost in Hkin. rewrite Hk in Hkin. simpl in *. lia.
    + by exists pre, post.
Qed.

(** Without one, the loop keeps the empty label. *)
Lemma maxClass_empty o (classes : gmap string Z) : classes = ∅ → maxClass o classes = EmptyString.
Proof.
  intros ->. unfold maxClass.
  destruct (maxLoop_spec ∅ (range_keys o (∅ : gmap string Z)) 0 EmptyString)
    as [[-> _]|(pre & post & l & _ & _ & _ & Hv & _)]; [done|].
  rewrite lookup_empty in Hv. simpl in *. lia.
Qed.

Lemma histogram_has_positive from :
  size (CountClassValues from) ≠ 0%nat →
  ∃ k n, CountClassValues from !! k = Some n ∧ 0 < n.
Proof.
  intros Hsz. destruct (map_choose (CountClassValues from)) as (k & n & Hk).
  { intros He. by rewrite He, map_size_empty in Hsz. }
  exists k, n. split; [done|]. apply CountClassValues_pos in Hk. lia.
Qed.

(** What [InferID3Tree] returns, by the case it takes. *)
Lemma InferID3Tree_rec_cases fuel os from g t :
  InferID3Tree_rec (S fuel) os from g = Ok t →
  ClassDist t = CountClassValues from ∧ ClassAttr t = GetClassAttrPtr from ∧
  ( (size (CountClassValues from) = 1%nat ∧ Type_ t = LeafNode ∧ Children t = None ∧
     SplitAttr t = None ∧ Class t = lastKey (range_keys (os []) (CountClassValues from)))
  ∨ (size (CountClassValues from) ≠ 1%nat ∧
     Class t = maxClass (os []) (CountClassValues from) ∧
     ( (GetAttributeCount from = 2 ∧ Type_ t = LeafNode ∧ Children t = None ∧ SplitAttr t = None)
     ∨ (GetAttributeCount from ≠ 2 ∧ g from = None ∧ Type_ t = RuleNode ∧
        Children t = None ∧ SplitAttr t = None)
     ∨ (GetAttributeCount from ≠ 2 ∧ Type_ t = RuleNode ∧
        ∃ a sub ch, g from = Some a ∧ DecomposeOnAttributeValues from a = Some sub ∧
          gather (map_imap (λ k s, Some (InferID3Tree_rec fuel (below k os) s g)) sub) = Ok ch ∧
          Children t = Some ch ∧ SplitAttr t = Some a) ) ) ).
Proof.
  simpl. case_decide as H1.
  { intros [= <-]. simpl. split_and!; try done. left. done. }
  case_decide as H2.
  { intros [= <-]. simpl. split_and!; try done. right. split_and!; try done. left. done. }
  destruct (g from) as [a|] eqn:Hg.
  - destruct (DecomposeOnAttributeValues from a) as [sub|] eqn:Hd; simpl; [|done].
    destruct (gather _) as [ch| |] eqn:Hch; simpl; [|done..].
    intros [= <-]. simpl. split_and!; try done. right. split_and!; try done.
    right. right. split_and!; try done. by exists a, sub, ch.
  - intros [= <-]. simpl. split_and!; try done. right. split_and!; try done.
    right. left. done.
Qed.

Lemma lastKey_singleton (o : KeyOrder) (m : gmap string Z) :
  is_order o → size m = 1%nat → ∃ k, range_keys o m = [k] ∧ map_keys m = [k].
Proof.
  intros Ho Hsz. unfold range_keys.
  assert (length (map_keys m) = 1%nat) as Hlen.
  { unfold map_keys. by rewrite length_fmap, length_map_to_list. }
  destruct (map_keys m) as [|k [|??]] eqn:Hk; simpl in Hlen; try lia.
  exists k. split; [|done]. apply Permutation_singleton_r. apply Ho.
Qed.

Lemma InferID3Tree_rec_similar fuel g :
  ∀ os1 os2 from t1,
  (∀ p, is_order (os1 p)) → (∀ p, is_order (os2 p)) →
  InferID3Tree_rec fuel os1 from g = Ok t1 →
  ∃ t2, InferID3Tree_rec fuel os2 from g = Ok t2 ∧ similar t1 t2.
Proof.
  induction fuel as [|fuel IH]; intros os1 os2 from t1 Ho1 Ho2 H1; [done|].
  assert (∀ o o', is_order o → is_order o' →
    tied_top (CountClassValues from) (maxClass o (CountClassValues from))
             (maxClass o' (CountClassValues from))) as Htie.
  { intros o o' Ho Ho'.
    destruct (decide (size (CountClassValues from) = 0%nat)) as [Hz|Hnz].
    - apply map_size_empty_inv in Hz. left. by rewrite !maxClass_empty.
    - right. split; eapply maxClass_first_top; eauto using histogram_has_positive. }
  simpl in H1 |- *. case_decide as Hs.
  { injection H1 as <-. eexists. split; [done|].
    destruct (lastKey_singleton (os1 []) _ (Ho1 _) Hs) as (k & -> & Hk).
    destruct (lastKey_singleton (os2 []) _ (Ho2 _) Hs) as (k' & -> & Hk').
    rewrite Hk in Hk'. injection Hk' as <-.
    constructor; simpl; try done; [by left|constructor]. }
  case_decide as Hc.
  { injection H1 as <-. eexists. split; [done|].
    constructor; simpl; try done; [by apply Htie|constructor]. }
  destruct (g from) as [a|] eqn:Hg.
  - destruct (DecomposeOnAttributeValues from a) as [sub|] eqn:Hd; simpl in *; [|done].
    destruct (gather _) as [ch1| |] eqn:Hch1; simpl in H1; [|done..].
    injection H1 as <-.
    assert (∀ k s, sub !! k = Some s → ∃ c1 c2,
      ch1 !! k = Some c1 ∧ InferID3Tree_rec fuel (below k os2) s g = Ok c2 ∧ similar c1 c2)
      as Hkids.
    { intros k s Hk. pose proof (gather_imap_lookup _ _ _ k Hch1) as Hl.
      rewrite Hk in Hl. destruct Hl as (c1 & Hc1 & Hl).
      destruct (IH (below k os1) (below k os2) s c1) as (c2 & Hc2 & Hsim); try done.
      - intros p. apply Ho1.
      - intros p. apply Ho2.
      - eauto. }
    rewrite (gather_ok_intro (map_imap _ sub)).
    2:{ intros k r. rewrite map_lookup_imap. destruct (sub !! k) as [s|] eqn:Hk; simpl; [|done].
        intros [= <-]. destruct (Hkids _ _ Hk) as (c1 & c2 & _ & -> & _). done. }
    simpl. eexists. split; [done|].
    constructor; simpl; try done; [by apply Htie|]. constructor.
    intros k. rewrite lookup_omap, map_lookup_imap.
    pose proof (gather_imap_lookup _ _ _ k Hch1) as Hl.
    destruct (sub !! k) as [s|] eqn:Hk; simpl.
    + destruct (Hkids _ _ Hk) as (c1 & c2 & -> & -> & Hsim). simpl. by constructor.
    + rewrite Hl. constructor.
  - injection H1 as <-. eexists. split; [done|].
    constructor; simpl; try done; [by apply Htie|constructor].
Qed.

Lemma is_order_id : is_order (λ l, l).
Proof. intros l. reflexivity. Qed.

Lemma is_order_rev : is_order (@rev string).
Proof. intros l. symmetry. apply Permutation_rev. Qed.

(** In a partition with more than one class the early leaf is returned
    exactly when the partition has two columns. *)
Lemma early_leaf_iff_two_columns os from g t :
  size (CountClassValues from) ≠ 1%nat → InferID3Tree os from g = Ok t →
  Type_ t = LeafNode ↔ GetAttributeCount from = 2.
Proof.
  intros Hs Ht. unfold InferID3Tree in Ht.
  apply InferID3Tree_rec_cases in Ht as (_ & _ & [[? _]|(_ & _ & Hc)]); [done|].
  destruct Hc as [(? & -> & _)|[(? & _ & -> & _)|(? & -> & _)]]; by split.
Qed.

(** C2, as amended: in a partition with more than one class the label of
    the node has the highest count of the histogram, and among several
    labels with that count it is the one the iteration over the histogram
    visits first. *)
Theorem majority_label_first_visited os from g t :
  is_order (os []) → (1 < size (CountClassValues from))%nat →
  InferID3Tree os from g = Ok t →
  first_top (CountClassValues from) (range_keys (os []) (CountClassValues from)) (Class t).
Proof.
  intros Ho Hs Ht. unfold InferID3Tree in Ht.
  apply InferID3Tree_rec_cases in Ht as (_ & _ & [[? _]|(_ & -> & _)]); [lia|].
  apply maxClass_first_top; [done|]. apply histogram_has_positive. lia.
Qed.

Lemma majority_label_first_visited_witness :
  first_top (CountClassValues Sample.tie)
    (range_keys (Sample.forwards []) (CountClassValues Sample.tie)) (Class Sample.tie_a).
Proof.
  apply (majority_label_first_visited Sample.forwards Sample.tie Sample.first_column Sample.tie_a).
  - apply is_order_id.
  - vm_compute. lia.
  - vm_compute. reflexivity.
Defined.

(** C2 fails as stated: the labels "a" and "b" tie for the highest count,
    and a run that visits "b" first labels the node "b", not "a". *)
Lemma majority_tie_not_smallest :
  is_order (Sample.backwards []) ∧
  CountClassValues Sample.tie = list_to_map [("a", 1); ("b", 1)] ∧
  InferID3Tree Sample.backwards Sample.tie Sample.first_column = Ok Sample.tie_b ∧
  Class Sample.tie_b = "b" ∧ str_gt "b" "a" = true.
Proof.
  split_and!; [apply is_order_rev|vm_compute; reflexivity..].
Qed.

(** C3, as amended: two runs on the same partition with the same generator
    end the same way, and when they return trees these agree in shape, node
    types, split attributes, histograms and class attribute; the labels of
    corresponding nodes are the same or tie for the highest count. *)
Theorem induction_same_up_to_ties os1 os2 from g t1 :
  (∀ p, is_order (os1 p)) → (∀ p, is_order (os2 p)) →
  InferID3Tree os1 from g = Ok t1 →
  ∃ t2, InferID3Tree os2 from g = Ok t2 ∧ similar t1 t2.
Proof. unfold InferID3Tree. apply InferID3Tree_rec_similar. Qed.

Lemma induction_same_up_to_ties_witness :
  ∃ t2, InferID3Tree Sample.backwards Sample.tie Sample.first_column = Ok t2 ∧
        similar Sample.tie_a t2.
Proof.
  apply (induction_same_up_to_ties Sample.forwards Sample.backwards).
  - intros p. apply is_order_id.
  - intros p. apply is_order_rev.
  - vm_compute. reflexivity.
Defined.

(** C3 fails as stated: two runs on the same partition with the same
    generator return different trees. *)
Lemma induction_runs_differ :
  (∀ p, is_order (Sample.forwards p)) ∧ (∀ p, is_order (Sample.backwards p)) ∧
  InferID3Tree Sample.forwards Sample.tie Sample.first_column = Ok Sample.tie_a ∧
  InferID3Tree Sample.backwards Sample.tie Sample.first_column = Ok Sample.tie_b ∧
  Sample.tie_a ≠ Sample.tie_b.
Proof.
  split_and!.
  - intros p. apply is_order_id.
  - intros p. apply is_order_rev.
  - vm_compute. reflexivity.
  - vm_compute. reflexivity.
  - intros H. apply (f_equal Class) in H. discriminate H.
Qed.

(** C4 fails on the code: with the attribute A still there beside the class,
    and a generator that would split on it, the induction returns a leaf;
    with the class alone it returns a rule node. *)
Lemma early_leaf_off_by_one :
  attributes Sample.two_columns = [Sample.A; Sample.C] ∧
  Sample.first_column Sample.two_columns = Some Sample.A ∧
  InferID3Tree Sample.forwards Sample.two_columns Sample.first_column
    = Ok (Sample.leaf [("0", 2); ("1", 1)] "0") ∧
  attributes Sample.class_only = [Sample.C] ∧
  InferID3Tree Sample.forwards Sample.class_only Sample.no_split
    = Ok (mkNode RuleNode None None (list_to_map [("0", 2); ("1", 1)]) "0" (Some Sample.C)).
Proof. split_and!; vm_compute; reflexivity. Qed.

(** ** Prediction *)


Lemma bestChildLoop_choice ks v best :
  ks ≠ [] → fallback_choice ks v (bestChildLoop ks v best).
Proof.
  revert best. induction ks as [|c ks IH]; intros best Hne; [done|]. simpl.
  destruct (str_gt c v) eqn:Hgt.
  - left. exists [], ks. split_and!; try done. intros c' Hc'. by apply elem_of_nil in Hc'.
  - destruct ks as [|c' ks'].
    + right. exists []. split; [done|]. intros c' ->%list_elem_of_singleton. done.
    + destruct (IH c) as [(pre & post & Hks & Hk & Hpre)|(pre & Hks & Hall)]; [done|..].
      * left. exists (c :: pre), post. split_and!; [simpl; by f_equal|done|].
        intros c0 [->|H0]%elem_of_cons; [done|by apply Hpre].
      * right. exists (c :: pre). split; [simpl; by f_equal|].
        intros c0 [->|H0]%elem_of_cons; [done|by apply Hall].
Qed.

Lemma fallback_choice_elem ks v k : fallback_choice ks v k → k ∈ ks.
Proof.
  intros [(pre & post & -> & _)|(pre & -> & _)]; apply elem_of_app; right; by left.
Qed.

Lemma range_keys_nonempty {A} (o : KeyOrder) (m : gmap string A) :
  is_order o → m ≠ ∅ → range_keys o m ≠ [].
Proof.
  intros Ho Hm Hnil. destruct (map_choose m Hm) as (k & x & Hk).
  assert (k ∈ range_keys o m) as Hin by (apply range_keys_elem; eauto).
  rewrite Hnil in Hin. by apply elem_of_nil in Hin.
Qed.

Lemma Predict_loop_last fuel os what i cur turn :
  Predict_loop fuel os what i cur turn = Class <$> Predict_last fuel os what i cur turn.
Proof.
  revert cur turn. induction fuel as [|fuel IH]; intros cur turn; simpl; [done|].
  unfold Predict_step. repeat case_match; simplify_eq; try done; apply IH.
Qed.

(** More fuel does not change what the loop returns. *)
Lemma Predict_last_more fuel fuel' os what i cur turn d :
  Predict_last fuel os what i cur turn = Ok d → (fuel ≤ fuel')%nat →
  Predict_last fuel' os what i cur turn = Ok d.
Proof.
  revert fuel' cur turn. induction fuel as [|fuel IH]; intros fuel' cur turn; simpl; [done|].
  intros H Hle. destruct fuel' as [|fuel']; [lia|]. simpl.
  destruct (Predict_step _ _ _ _); try done. apply IH; [done|lia].
Qed.

(** The step the loop takes at a node that has no child for the value. *)
Lemma Predict_step_fallback o what i cur children j :
  is_order o → Children cur = Some children → children ≠ ∅ →
  GetAttrIndex what (SplitAttr cur) = Some j →
  children !! GetStringFromSysVal (SplitAttr cur) (Get what i j) = None →
  ∃ k next,
    fallback_choice (range_keys o children)
      (GetStringFromSysVal (SplitAttr cur) (Get what i j)) k ∧
    children !! k = Some next ∧
    Predict_step o what i cur = Descend next.
Proof.
  intros Ho Hch Hne Hj Hmiss. unfold Predict_step. rewrite Hch, Hj, Hmiss.
  set (v := GetStringFromSysVal (SplitAttr cur) (Get what i j)).
  pose proof (bestChildLoop_choice (range_keys o children) v EmptyString
                (range_keys_nonempty o children Ho Hne)) as Hc.
  fold (bestChild (range_keys o children) v) in Hc.
  pose proof (fallback_choice_elem _ _ _ Hc) as Hin.
  apply range_keys_elem in Hin as [next Hnext]; [|done].
  exists (bestChild (range_keys o children) v), next. by rewrite Hnext.
Qed.




Lemma sequence_Ok {A} (rs : list (result A)) l : sequence rs = Ok l ↔ rs = Ok <$> l.
Proof.
  revert l. induction rs as [|r rs IH]; intros l; simpl.
  - split; [intros [= <-]; done|]. by destruct l.
  - destruct r as [a| |]; simpl.
    + destruct (sequence rs) as [l'| |] eqn:Hs; simpl.
      * split.
        -- intros [= <-]. simpl. f_equal. by apply IH.
        -- destruct l as [|a' l'']; simpl; [done|]. intros [= -> H%IH]. congruence.
      * split; [done|]. destruct l as [|a' l'']; simpl; [done|]. intros [= -> H%IH]. done.
      * split; [done|]. destruct l as [|a' l'']; simpl; [done|]. intros [= -> H%IH]. done.
    + split; [done|]. by destruct l.
    + split; [done|]. by destruct l.
Qed.

Lemma sequence_all_Ok {A} (rs : list (result A)) :
  (∀ i r, rs !! i = Some r → ∃ a, r = Ok a) →
  ∃ l, sequence rs = Ok l ∧ length l = length rs.
Proof.
  induction rs as [|r rs IH]; intros H; simpl; [by exists []|].
  destruct (H 0%nat r eq_refl) as [a ->].
  destruct IH as (l & -> & Hlen); [intros i r' Hr; by apply (H (S i))|].
  exists (a :: l). simpl. by rewrite Hlen.
Qed.

Lemma Predict_labels_lookup os d what labels i l :
  Predict_labels os d what = Ok labels → labels !! i = Some l →
  Predict_loop (S (height d)) (os i) what i d 0 = Ok l.
Proof.
  unfold Predict_labels. intros Hs%sequence_Ok Hl.
  apply (f_equal (λ rs, rs !! i)) in Hs.
  rewrite list_lookup_imap, list_lookup_fmap, Hl in Hs.
  destruct (storage what !! i); simpl in Hs; by simplify_eq.
Qed.

Lemma Predict_labels_length os d what labels :
  Predict_labels os d what = Ok labels → length labels = Rows what.
Proof.
  unfold Predict_labels. intros Hs%sequence_Ok.
  apply (f_equal length) in Hs. by rewrite length_imap, length_fmap in Hs.
Qed.

Lemma Predict_labels_all_Ok os d what :
  (∀ i, (i < Rows what)%nat → ∃ l, Predict_loop (S (height d)) (os i) what i d 0 = Ok l) →
  ∃ labels, Predict_labels os d what = Ok labels ∧ length labels = Rows what.
Proof.
  intros H. unfold Predict_labels.
  destruct (sequence_all_Ok (imap (λ i _, Predict_loop (S (height d)) (os i) what i d 0)
                                  (storage what))) as (l & Hl & Hlen).
  - intros i r. rewrite list_lookup_imap.
    destruct (storage what !! i) eqn:Hi; simpl; [|done]. intros [= <-].
    apply H. by apply lookup_lt_Some in Hi.
  - exists l. split; [done|]. by rewrite Hlen, length_imap.
Qed.

(** On a tree without empty children maps the loop breaks within as many
    turns as the tree is high, at a node without children or at one whose
    split attribute the rows do not have. *)
Lemma Predict_last_terminates fuel os what i cur turn :
  (∀ n, is_order (os n)) → children_nonempty cur → (height cur < fuel)%nat →
  ∃ d, Predict_last fuel os what i cur turn = Ok d ∧
       (Children d = None ∨ GetAttrIndex what (SplitAttr d) = None).
Proof.
  intros Ho. revert cur turn. induction fuel as [|fuel IH]; intros cur turn Hne Hh; [lia|].
  simpl. unfold Predict_step.
  destruct (Children cur) as [ch|] eqn:Hch; [|by eauto].
  destruct (GetAttrIndex what (SplitAttr cur)) as [j|] eqn:Hj; [|by eauto].
  inversion Hne as [? Hkids]; subst. destruct (Hkids ch Hch) as [Hnonempty Hsub].
  set (v := GetStringFromSysVal (SplitAttr cur) (Get what i j)).
  destruct (ch !! v) as [next|] eqn:Hv.
  - apply IH; [by eapply Hsub|]. pose proof (height_child _ _ _ _ Hch Hv). lia.
  - destruct (Predict_step_fallback (os turn) what i cur ch j) as (k & next & _ & Hk & Hstep);
      try done.
    unfold Predict_step in Hstep. rewrite Hch, Hj in Hstep. fold v in Hstep.
    rewrite Hv in Hstep. rewrite Hstep.
    apply IH; [by eapply Hsub|]. pose proof (height_child _ _ _ _ Hch Hk). lia.
Qed.

Lemma group_rows_nonempty j rows : rows ≠ [] → group_rows j rows ≠ ∅.
Proof.
  destruct rows as [|row rows]; [done|]. intros _ He.
  apply (f_equal (λ m, m !! cell j row)) in He.
  rewrite group_rows_lookup, lookup_empty, filter_cons_True in He by done. done.
Qed.

(** Induction from a partition that has a row builds no empty children map. *)
Lemma InferID3Tree_rec_children_nonempty fuel g :
  ∀ os from t, storage from ≠ [] → InferID3Tree_rec fuel os from g = Ok t →
  children_nonempty t.
Proof.
  induction fuel as [|fuel IH]; intros os from t Hrows Ht; [done|].
  apply InferID3Tree_rec_cases in Ht as (_ & _ & Hc).
  constructor. intros ch Hch.
  destruct Hc as [(_ & _ & ? & _)|(_ & _ & [(_ & _ & ? & _)|[(_ & _ & _ & ? & _)|Hc]])];
    try congruence.
  destruct Hc as (_ & _ & a & sub & ch' & Hg & Hd & Hgather & Hch' & Ha).
  assert (ch' = ch) as -> by congruence.
  split.
  - unfold DecomposeOnAttributeValues in Hd.
    destruct (GetAttrIndex from (Some a)) as [j|]; [|done]. injection Hd as <-.
    destruct (storage from) as [|row rows] eqn:Hst; [done|].
    pose proof (gather_imap_lookup _ _ _ (cell j row) Hgather) as Hl.
    rewrite lookup_fmap, group_rows_lookup, filter_cons_True in Hl by done. simpl in Hl.
    destruct Hl as (c & _ & Hc). intros ->. by rewrite lookup_empty in Hc.
  - intros k c Hk. pose proof (gather_imap_lookup _ _ _ k Hgather) as Hl.
    destruct (sub !! k) as [s|] eqn:Hs; [|congruence].
    destruct Hl as (c' & Hc' & Hl). assert (c' = c) as -> by congruence.
    eapply IH; [|done].
    destruct (Decompose_lookup _ _ _ _ _ Hd Hs) as (j & _ & Hne & ->). simpl.
    intros Hnil. apply fmap_nil_inv in Hnil. done.
Qed.

Lemma InferID3Tree_children_nonempty os from g t :
  (0 < Rows from)%nat → InferID3Tree os from g = Ok t → children_nonempty t.
Proof.
  intros Hrows. apply InferID3Tree_rec_children_nonempty.
  unfold Rows in Hrows. destruct (storage from); simpl in *; [lia|done].
Qed.

(** C10, as amended: for a tree induced from a partition with at least one
    row, prediction on any rows returns exactly one label per row, and the
    loop of each row breaks after at most as many descents as the tree is
    high, at a node with nil children or at a node whose split attribute
    the rows do not have. *)
Theorem prediction_terminates ios from g t os what :
  (0 < Rows from)%nat → InferID3Tree ios from g = Ok t →
  (∀ i n, is_order (os i n)) →
  (∃ labels, Predict_labels os t what = Ok labels ∧ length labels = Rows what) ∧
  ∀ i, ∃ d, Predict_last (S (height t)) (os i) what i t 0 = Ok d ∧
            (Children d = None ∨ GetAttrIndex what (SplitAttr d) = None).
Proof.
  intros Hrows Ht Ho.
  pose proof (InferID3Tree_children_nonempty _ _ _ _ Hrows Ht) as Hne.
  split.
  - apply Predict_labels_all_Ok. intros i _.
    destruct (Predict_last_terminates (S (height t)) (os i) what i t 0) as (d & Hd & _);
      [done|done|lia|].
    exists (Class d). by rewrite Predict_loop_last, Hd.
  - intros i. apply Predict_last_terminates; [done|done|lia].
Qed.

Lemma prediction_terminates_witness :
  (∃ labels, Predict_labels Sample.predict_forwards Sample.tree Sample.without_A = Ok labels ∧
             length labels = Rows Sample.without_A) ∧
  ∀ i, ∃ d, Predict_last (S (height Sample.tree)) (Sample.predict_forwards i)
              Sample.without_A i Sample.tree 0 = Ok d ∧
            (Children d = None ∨ GetAttrIndex Sample.without_A (SplitAttr d) = None).
Proof.
  apply (prediction_terminates Sample.forwards Sample.train Sample.first_column).
  - vm_compute. lia.
  - vm_compute. reflexivity.
  - intros i n l. reflexivity.
Defined.

(** C10 fails as stated: on rows that lack the attribute A the loop breaks
    at the root of the sample tree, whose children map is not nil; and the
    tree induced from a partition without rows has an empty children map,
    on which prediction dereferences nil. *)
Lemma prediction_stops_above_leaf :
  InferID3Tree Sample.forwards Sample.train Sample.first_column = Ok Sample.tree ∧
  Predict_last (S (height Sample.tree)) (Sample.predict_forwards 0%nat)
    Sample.without_A 0 Sample.tree 0 = Ok Sample.tree ∧
  Children Sample.tree ≠ None ∧
  InferID3Tree Sample.forwards Sample.no_rows Sample.first_column = Ok Sample.hollow ∧
  Predict_labels Sample.predict_forwards Sample.hollow Sample.validation = Panic.
Proof.
  split_and!.
  - vm_compute. reflexivity.
  - vm_compute. reflexivity.
  - done.
  - vm_compute. reflexivity.
  - vm_compute. reflexivity.
Qed.

(** ** Pruning *)

Lemma bind_Ok {A B} (r : result A) (f : A → result B) b :
  r ≫= f = Ok b → ∃ a, r = Ok a ∧ f a = Ok b.
Proof. destruct r as [a| |]; simpl; [eauto|done..]. Qed.

(** What [Prune] returns, by the case it takes. *)
Lemma Prune_cases os d using_ d' :
  Prune os d using_ = Ok d' →
  (Children d = None ∧ d' = d) ∨
  (SplitAttr d = None ∧ d' = d) ∨
  (∃ children at_ sub pruned p1 p0,
     Children d = Some children ∧ SplitAttr d = Some at_ ∧
     DecomposeOnAttributeValues using_ at_ = Some sub ∧
     children_pruned os sub children pruned ∧
     Predict (os []) (with_children d (Some pruned)) using_ = Ok p1 ∧
     Predict (os []) (with_children d None) using_ = Ok p0 ∧
     d' = if acc_lt (computeAccuracy p0 using_) (computeAccuracy p1 using_)
          then with_children d (Some pruned) else with_children d None).
Proof.
  destruct d as [ty [ch|] [a|] cd cl ca]; simpl; try (intros [= <-]; by eauto).
  intros H.
  apply bind_Ok in H as (sub & Hd & H).
  apply bind_Ok in H as (pruned & Hg & H).
  apply bind_Ok in H as (p1 & Hp1 & H).
  apply bind_Ok in H as (p0 & Hp0 & H).
  injection H as <-.
  destruct (DecomposeOnAttributeValues using_ a) as [sub'|] eqn:Hd'; simpl in Hd; [|done].
  injection Hd as ->.
  right. right. exists ch, a, sub, pruned, p1, p0.
  split_and!; try done.
  intros k. pose proof (gather_imap_lookup _ _ _ k Hg) as Hl.
  destruct (ch !! k) as [c|]; [|done]. destruct Hl as (c' & Hc' & Hl).
  exists c'. split; [done|]. destruct (sub !! k); [done|congruence].
Qed.

Lemma GetAccuracy_correct_le cf : (correct (GetAccuracy cf) ≤ total (GetAccuracy cf))%nat.
Proof. simpl. apply length_filter. Qed.

Lemma predictions_classes what labels :
  GetClass (predictions_of what labels) <$> storage (predictions_of what labels) = labels.
Proof.
  simpl. rewrite <- list_fmap_compose. induction labels as [|l labels IH]; simpl; [done|].
  by f_equal.
Qed.

Lemma computeAccuracy_total os d using_ p :
  Predict os d using_ = Ok p → total (computeAccuracy p using_) = Rows using_.
Proof.
  unfold Predict. destruct (Predict_labels os d using_) as [labels| |] eqn:Hl; simpl; [|done..].
  intros [= <-]. apply Predict_labels_length in Hl.
  unfold GetConfusionMatrix. rewrite predictions_classes.
  rewrite length_zip_with, length_fmap. unfold Rows in *. lia.
Qed.

(** Between accuracies over the same rows, less is fewer correct. *)
Lemma acc_lt_same_total cf cf' :
  total (GetAccuracy cf) = total (GetAccuracy cf') →
  acc_lt (GetAccuracy cf) (GetAccuracy cf') = true ↔
  (correct (GetAccuracy cf) < correct (GetAccuracy cf'))%nat.
Proof.
  intros Ht. pose proof (GetAccuracy_correct_le cf). pose proof (GetAccuracy_correct_le cf').
  unfold acc_lt. rewrite !andb_true_iff, !bool_decide_eq_true. rewrite <- Ht.
  split; [intros [[? ?] ?]; nia|intros; split_and!; nia].
Qed.

(** C6: at a node with children and a split attribute, once the children
    are pruned with their validation groups, [Prune] compares the accuracy
    of the node as a leaf with that of the node over its pruned children,
    both over all validation rows of the node: it restores the children when
    the leaf gets strictly fewer rows right, and keeps the node collapsed
    otherwise, also on equal accuracy. *)
Theorem prune_keeps_collapsed_unless_worse os d using_ d' children at_ :
  Children d = Some children → SplitAttr d = Some at_ → Prune os d using_ = Ok d' →
  ∃ sub pruned p1 p0,
    DecomposeOnAttributeValues using_ at_ = Some sub ∧
    children_pruned os sub children pruned ∧
    Predict (os []) (with_children d (Some pruned)) using_ = Ok p1 ∧
    Predict (os []) (with_children d None) using_ = Ok p0 ∧
    total (computeAccuracy p1 using_) = Rows using_ ∧
    total (computeAccuracy p0 using_) = Rows using_ ∧
    ((correct (computeAccuracy p0 using_) < correct (computeAccuracy p1 using_))%nat →
       d' = with_children d (Some pruned)) ∧
    ((correct (computeAccuracy p1 using_) ≤ correct (computeAccuracy p0 using_))%nat →
       d' = with_children d None).
Proof.
  intros Hch Ha Hp.
  apply Prune_cases in Hp as [[? _]|[[? _]|Hp]]; [congruence..|].
  destruct Hp as (ch' & a' & sub & pruned & p1 & p0 & Hch' & Ha' & Hd & Hpr & Hp1 & Hp0 & ->).
  assert (ch' = children) as -> by congruence. assert (a' = at_) as -> by congruence.
  exists sub, pruned, p1, p0.
  pose proof (computeAccuracy_total _ _ _ _ Hp1) as Ht1.
  pose proof (computeAccuracy_total _ _ _ _ Hp0) as Ht0.
  unfold computeAccuracy in *.
  split_and!; try done.
  - intros Hlt. apply (acc_lt_same_total _ _ (eq_trans Ht0 (eq_sym Ht1))) in Hlt.
    by rewrite Hlt.
  - intros Hle. destruct (acc_lt _ _) eqn:Hacc; [|done].
    apply (acc_lt_same_total _ _ (eq_trans Ht0 (eq_sym Ht1))) in Hacc. lia.
Qed.

Lemma only_children_changed_refl d : only_children_changed d d.
Proof.
  induction d as [d IH] using node_children_ind.
  constructor; try done. intros ch Hch. exists ch. split; [done|].
  intros k. destruct (ch !! k) as [c|] eqn:Hk; constructor. by eapply IH.
Qed.

(** [Prune] assigns nothing but [Children]. *)
Lemma Prune_only_children_changed os d using_ d' :
  Prune os d using_ = Ok d' → only_children_changed d d'.
Proof.
  revert os using_ d'. induction d as [d IH] using node_children_ind.
  intros os using_ d' Hp.
  apply Prune_cases in Hp as [[_ ->]|[[_ ->]|Hp]]; [apply only_children_changed_refl..|].
  destruct Hp as (ch & a & sub & pruned & p1 & p0 & Hch & Ha & Hd & Hpr & Hp1 & Hp0 & ->).
  destruct (acc_lt _ _); constructor; simpl; try done.
  intros ch' [= <-]. exists ch. split; [done|].
  intros k. specialize (Hpr k). destruct (ch !! k) as [c|] eqn:Hk.
  - destruct Hpr as (c' & -> & Hc'). constructor.
    destruct (sub !! k) as [s|].
    + by eapply IH.
    + subst. apply only_children_changed_refl.
  - rewrite Hpr. constructor.
Qed.

(** C9: the tree [Prune] returns differs from the one it was given in
    [Children] fields at most; at every node [Type], [SplitAttr],
    [ClassDist], [Class] and [ClassAttr] are as before, so a node collapsed
    to a leaf keeps the split attribute it had. *)
Theorem prune_changes_children_only os d using_ d' :
  Prune os d using_ = Ok d' → only_children_changed d d'.
Proof. apply Prune_only_children_changed. Qed.

Lemma prune_keeps_collapsed_unless_worse_witness :
  ∃ sub pruned p1 p0,
    DecomposeOnAttributeValues Sample.validation Sample.A = Some sub ∧
    children_pruned Sample.prune_forwards sub (default ∅ (Children Sample.tree)) pruned ∧
    Predict (Sample.prune_forwards []) (with_children Sample.tree (Some pruned))
      Sample.validation = Ok p1 ∧
    Predict (Sample.prune_forwards []) (with_children Sample.tree None)
      Sample.validation = Ok p0 ∧
    total (computeAccuracy p1 Sample.validation) = Rows Sample.validation ∧
    total (computeAccuracy p0 Sample.validation) = Rows Sample.validation ∧
    ((correct (computeAccuracy p0 Sample.validation)
        < correct (computeAccuracy p1 Sample.validation))%nat →
       with_children Sample.tree None = with_children Sample.tree (Some pruned)) ∧
    ((correct (computeAccuracy p1 Sample.validation)
        ≤ correct (computeAccuracy p0 Sample.validation))%nat →
       with_children Sample.tree None = with_children Sample.tree None).
Proof.
  apply (prune_keeps_collapsed_unless_worse Sample.prune_forwards Sample.tree
           Sample.validation (with_children Sample.tree None)
           (default ∅ (Children Sample.tree)) Sample.A).
  - reflexivity.
  - reflexivity.
  - vm_compute. reflexivity.
Defined.

Lemma prune_changes_children_only_witness :
  only_children_changed Sample.tree (with_children Sample.tree None).
Proof.
  apply (prune_changes_children_only Sample.prune_forwards Sample.tree Sample.validation).
  vm_compute. reflexivity.
Defined.

(** ** The orchestrator *)

Lemma SFleb_not_gt x y : SFleb x y = true → SFltb y x = false.
Proof.
  unfold SFleb, SFltb.
  destruct x as [sx|sx| |sx mx ex], y as [sy|sy| |sy my ey]; simpl; try done;
    try (destruct sx; done); try (destruct sy; done);
    try (destruct sx, sy; done).
  destruct sx, sy; try done.
  - rewrite (Z.compare_antisym ex ey). destruct (ex ?= ey); simpl; try done.
    pose proof (Pos.compare_cont_antisym mx my Eq) as Ha. simpl in Ha.
    rewrite <- Ha. by destruct (Pos.compare_cont Eq mx my).
  - rewrite (Z.compare_antisym ex ey). destruct (ex ?= ey); simpl; try done.
    pose proof (Pos.compare_cont_antisym mx my Eq) as Ha. simpl in Ha.
    rewrite <- Ha. by destruct (Pos.compare_cont Eq mx my).
Qed.

#[warnings="-inexact-float"]
Lemma at_most_threshold_no_prune t :
  PrimFloat.leb (PruneSplit t) 0.001%float = true → prunes t = false.
Proof.
  unfold prunes. rewrite leb_spec, ltb_spec. apply SFleb_not_gt.
Qed.

(** C7: with a pruning ratio of at most 0.001, [Fit] induces the root from
    the whole dataset and does not prune; with a larger ratio it splits the
    dataset by the ratio, induces the root from the training part and prunes
    it with the other part. *)
#[warnings="-inexact-float"]
Theorem fit_prunes_above_threshold gen split io po t on :
  (PrimFloat.leb (PruneSplit t) 0.001%float = true →
     Fit gen split io po t on = (root ← InferID3Tree io on gen; Ok (set_root t root))) ∧
  (PrimFloat.ltb 0.001%float (PruneSplit t) = true →
     Fit gen split io po t on =
       (root ← InferID3Tree io (split on (PruneSplit t)).1 gen;
        root' ← Prune po root (split on (PruneSplit t)).2;
        Ok (set_root t root'))).
Proof.
  split; intros H; unfold Fit.
  - by rewrite (at_most_threshold_no_prune t H).
  - unfold prunes. rewrite H. by destruct (split on (PruneSplit t)).
Qed.

#[warnings="-inexact-float"]
Lemma fit_prunes_above_threshold_witness :
  Fit Sample.first_column (λ on _, (on, Sample.validation)) Sample.forwards
      Sample.prune_forwards (NewID3DecisionTree 0%float) Sample.train
    = (root ← InferID3Tree Sample.forwards Sample.train Sample.first_column;
       Ok (set_root (NewID3DecisionTree 0%float) root)) ∧
  Fit Sample.first_column (λ on _, (on, Sample.validation)) Sample.forwards
      Sample.prune_forwards (NewID3DecisionTree 0.25%float) Sample.train
    = (root ← InferID3Tree Sample.forwards Sample.train Sample.first_column;
       root' ← Prune Sample.prune_forwards root Sample.validation;
       Ok (set_root (NewID3DecisionTree 0.25%float) root')).
Proof.
  split.
  - apply (proj1 (fit_prunes_above_threshold Sample.first_column
      (λ on _, (on, Sample.validation)) Sample.forwards Sample.prune_forwards
      (NewID3DecisionTree 0%float) Sample.train)).
    vm_compute. reflexivity.
  - apply (proj2 (fit_prunes_above_threshold Sample.first_column
      (λ on _, (on, Sample.validation)) Sample.forwards Sample.prune_forwards
      (NewID3DecisionTree 0.25%float) Sample.train)).
    vm_compute. reflexivity.
Defined.

(** ** The ensemble *)

Lemma add_trees_models n b :
  Models (add_trees n b) = Models b ++ replicate n (NewID3DecisionTree 0%float) ∧
  RandomFeatures (add_trees n b) = RandomFeatures b.
Proof.
  induction n as [|n [IHm IHf]]; simpl.
  - by rewrite app_nil_r.
  - rewrite IHm, IHf. split; [|done].
    by rewrite <- app_assoc, <- replicate_S_end.
Qed.

(** C8: for a forest size F that is not negative and a feature count k,
    [Fit] hands the aggregator exactly F fresh tree orchestrators, each
    with pruning off, and k as the feature-subsample size, and keeps what
    the aggregator's training returns; [Predict] is the aggregator's
    prediction on that model. *)
Theorem forest_delegates_to_bagging bag_fit bag_predict F k on :
  0 ≤ F →
  let registered := registered (NewRandomForest F k) in
  Z.of_nat (length (Models registered)) = F ∧
  Forall (λ t, Root t = None ∧ prunes t = false) (Models registered) ∧
  RandomFeatures registered = k ∧
  RandomForest_Fit bag_fit (NewRandomForest F k) on =
    (m ← bag_fit registered on; Ok (mkRandomForest F k (Some m))) ∧
  ∀ m with_,
    RandomForest_Predict bag_predict (mkRandomForest F k (Some m)) with_ = bag_predict m with_.
Proof.
  intros HF registered0. subst registered0. unfold registered. simpl.
  destruct (add_trees_models (Z.to_nat F) {| Models := []; RandomFeatures := k |}) as [Hm Hf].
  simpl in Hm, Hf. rewrite Hm, Hf.
  split_and!; try done.
  - rewrite length_replicate. lia.
  - apply Forall_replicate. split; [done|]. vm_compute. reflexivity.
Qed.

Lemma forest_delegates_to_bagging_witness :
  let registered := registered (NewRandomForest 2 3) in
  Z.of_nat (length (Models registered)) = 2 ∧
  Forall (λ t, Root t = None ∧ prunes t = false) (Models registered) ∧
  RandomFeatures registered = 3 ∧
  RandomForest_Fit (λ m _, Ok m) (NewRandomForest 2 3) Sample.train =
    (m ← Ok registered; Ok (mkRandomForest 2 3 (Some m))) ∧
  ∀ m with_,
    RandomForest_Predict (λ _ w, Ok w) (mkRandomForest 2 3 (Some m)) with_ = Ok with_.
Proof.
  apply (forest_delegates_to_bagging (λ m _, Ok m) (λ _ w, Ok w) 2 3 Sample.train). lia.
Defined.

(** ** Pruning on congruent validation rows *)

Lemma projects_refl U r : projects U U r r.
Proof. intros b j Hj. eauto. Qed.

Lemma projects_trans U S T r r' r'' :
  projects U S r r' → projects S T r' r'' → projects U T r r''.
Proof.
  intros H1 H2 b j Hj. destruct (H2 b j Hj) as (j' & Hj' & Hc).
  destruct (H1 b j' Hj') as (j0 & Hj0 & Hc'). exists j0. split; [done|congruence].
Qed.

Lemma index_of_Some a l j :
  index_of a l = Some j ↔ l !! j = Some a ∧ ∀ i, (i < j)%nat → l !! i ≠ Some a.
Proof.
  revert j. induction l as [|b l IH]; intros j; simpl.
  - split; [done|]. by intros [? _].
  - case_decide as Hb.
    + subst b. split.
      * intros [= <-]. split; [done|]. intros i Hi. lia.
      * intros [Hj Hfirst]. destruct j as [|j]; [done|].
        exfalso. apply (Hfirst 0%nat); [lia|done].
    + destruct (index_of a l) as [j'|]; simpl.
      * split.
        -- intros [= <-]. destruct (proj1 (IH j') eq_refl) as [Hj Hfirst]. split; [done|].
           intros [|i] Hlt; simpl; [congruence|]. apply Hfirst. lia.
        -- intros [Hj Hfirst]. destruct j as [|j]; simpl in Hj; [congruence|].
           f_equal. assert (Some j' = Some j) as Hc; [|congruence].
           apply IH. split; [done|]. intros i Hlt. apply (Hfirst (S i)). lia.
      * split; [done|]. intros [Hj Hfirst]. destruct j as [|j]; simpl in Hj; [congruence|].
        assert (None = Some j) as Hc; [|congruence].
        apply IH. split; [done|]. intros i Hlt. apply (Hfirst (S i)). lia.
Qed.

Lemma cell_delete_lt j i (r : list string) : (i < j)%nat → cell i (delete j r) = cell i r.
Proof. intros H. unfold cell. by rewrite list_lookup_delete_lt. Qed.

Lemma cell_delete_ge j i (r : list string) : (j ≤ i)%nat → cell i (delete j r) = cell (S i) r.
Proof. intros H. unfold cell. by rewrite list_lookup_delete_ge. Qed.

(** Dropping a column leaves every other column's cell where the schema
    without that column looks for it. *)
Lemma projects_delete attrs a j r :
  NoDup attrs → index_of a attrs = Some j → projects attrs (delete j attrs) r (delete j r).
Proof.
  intros Hnd Ha b j' Hb.
  apply index_of_Some in Ha as [Haj _].
  apply index_of_Some in Hb as [Hbj Hbfirst].
  destruct (decide (j' < j)%nat) as [Hlt|Hge].
  - exists j'. rewrite cell_delete_lt by done. split; [|done].
    apply index_of_Some. rewrite list_lookup_delete_lt in Hbj by done. split; [done|].
    intros i Hi Hib. apply (Hbfirst i Hi). rewrite list_lookup_delete_lt by lia. done.
  - exists (S j'). rewrite cell_delete_ge by lia. split; [|done].
    rewrite list_lookup_delete_ge in Hbj by lia.
    apply index_of_Some. split; [done|].
    intros i Hi Hib.
    assert (i = S j') as ->; [|lia].
    eapply NoDup_lookup; eauto.
Qed.

Lemma NoDup_delete {A} (l : list A) j : NoDup l → NoDup (delete j l).
Proof.
  intros H. apply (sublist_NoDup _ l); [done|apply sublist_delete].
Qed.

Lemma view_self u i r : storage u !! i = Some r → view u i u r.
Proof. intros H. exists r. split; [done|apply projects_refl]. Qed.

Lemma view_single u r : view (single u r) 0 u r.
Proof. exists r. split; [done|apply projects_refl]. Qed.

(** Where a routed row goes from a node with children and a split
    attribute: into the child under its value, with its group. *)
Lemma routed_descend c s ch b r' :
  routed c s → Children c = Some ch → SplitAttr c = Some b → r' ∈ storage s →
  ∃ jb c2 sub s',
    index_of b (attributes s) = Some jb ∧ jb ≠ ClassIndex s ∧
    DecomposeOnAttributeValues s b = Some sub ∧
    sub !! cell jb r' = Some s' ∧
    s' = drop_column s jb (delete jb <$> filter (λ r, cell jb r = cell jb r') (storage s)) ∧
    ch !! cell jb r' = Some c2 ∧ routed c2 s'.
Proof.
  intros Hr Hch Hb Hin.
  inversion Hr as [| |? ? ch' b' j sub Hch' Hb' Hj Hcls Hd Hkids]; subst; [congruence..|].
  assert (ch' = ch) as -> by congruence. assert (b' = b) as -> by congruence.
  pose proof Hd as Hd'. unfold DecomposeOnAttributeValues in Hd'. rewrite Hj in Hd'.
  injection Hd' as Hsub.
  assert (sub !! cell j r' = Some (drop_column s j
            (delete j <$> filter (λ r, cell j r = cell j r') (storage s)))) as Hs.
  { rewrite <- Hsub, lookup_fmap, group_rows_lookup.
    destruct (filter _ (storage s)) as [|r0 rs] eqn:Hf; [|done].
    exfalso. assert (r' ∈ filter (λ r, cell j r = cell j r') (storage s)) as Hin'
      by (by apply list_elem_of_filter).
    rewrite Hf in Hin'. by apply elem_of_nil in Hin'. }
  destruct (Hkids _ _ Hs) as (c2 & Hc2 & Hr2).
  eexists j, c2, sub, _. split_and!; try done.
Qed.

Lemma routed_step o U i c s ch b r' :
  routed c s → NoDup (attributes s) → Children c = Some ch → SplitAttr c = Some b →
  r' ∈ storage s → view U i s r' →
  ∃ jb c2 s',
    index_of b (attributes s) = Some jb ∧ jb ≠ ClassIndex s ∧
    s' = drop_column s jb (delete jb <$> filter (λ r, cell jb r = cell jb r') (storage s)) ∧
    ch !! cell jb r' = Some c2 ∧ routed c2 s' ∧
    Predict_step o U i c = Descend c2 ∧
    view U i s' (delete jb r') ∧ delete jb r' ∈ storage s'.
Proof.
  intros Hr Hnd Hch Hb Hin (r & Hi & Hproj).
  destruct (routed_descend _ _ _ _ _ Hr Hch Hb Hin)
    as (jb & c2 & sub & s' & Hjb & Hcls & _ & _ & Hs' & Hc2 & Hr2).
  exists jb, c2, s'. split_and!; try done.
  - destruct (Hproj b jb Hjb) as (j0 & Hj0 & Hcell).
    unfold Predict_step. rewrite Hch, Hb. simpl. rewrite Hj0.
    unfold GetStringFromSysVal, Get. rewrite Hi. simpl. by rewrite Hcell, Hc2.
  - exists r. split; [done|]. subst s'. simpl.
    eapply projects_trans; [done|]. by eapply projects_delete.
  - subst s'. simpl. apply list_elem_of_fmap. exists r'. split; [done|].
    by apply list_elem_of_filter.
Qed.

Lemma drop_column_NoDup s j rows : NoDup (attributes s) → NoDup (attributes (drop_column s j rows)).
Proof. simpl. apply NoDup_delete. Qed.

(** A routed row gets the same label through every view of it, whatever
    the iteration orders: no fallback is ever taken. *)
Lemma routed_views c :
  ∀ s r' U1 i1 os1 t1 f1 U2 i2 os2 t2 f2,
  routed c s → NoDup (attributes s) → r' ∈ storage s →
  view U1 i1 s r' → (height c < f1)%nat →
  view U2 i2 s r' → (height c < f2)%nat →
  ∃ l, Predict_loop f1 os1 U1 i1 c t1 = Ok l ∧ Predict_loop f2 os2 U2 i2 c t2 = Ok l.
Proof.
  induction c as [c IH] using node_children_ind.
  intros s r' U1 i1 os1 t1 f1 U2 i2 os2 t2 f2 Hr Hnd Hin Hv1 Hf1 Hv2 Hf2.
  destruct f1 as [|f1]; [lia|]. destruct f2 as [|f2]; [lia|]. simpl.
  destruct (Children c) as [ch|] eqn:Hch.
  2:{ unfold Predict_step. rewrite Hch. eauto. }
  destruct (SplitAttr c) as [b|] eqn:Hb.
  2:{ unfold Predict_step. rewrite Hch, Hb. simpl. eauto. }
  destruct (routed_step (os1 t1) U1 i1 c s ch b r' Hr Hnd Hch Hb Hin Hv1)
    as (jb & c2 & s' & Hjb & _ & Hs' & Hc2 & Hr2 & -> & Hv1' & Hin').
  destruct (routed_step (os2 t2) U2 i2 c s ch b r' Hr Hnd Hch Hb Hin Hv2)
    as (jb' & c2' & s'' & Hjb' & _ & Hs'' & Hc2' & _ & -> & Hv2' & _).
  assert (jb' = jb) as -> by congruence. assert (c2' = c2) as -> by congruence.
  assert (s'' = s') as -> by congruence.
  pose proof (height_child _ _ _ _ Hch Hc2) as Hh.
  eapply (IH ch _ c2 eq_refl Hc2 s'); try done; try lia.
  subst s'. by apply drop_column_NoDup.
Qed.

Lemma routed_row_label os c u i r fuel turn :
  routed c u → NoDup (attributes u) → storage u !! i = Some r → (height c < fuel)%nat →
  ∃ l, row_label c u r = Ok l ∧ Predict_loop fuel os u i c turn = Ok l.
Proof.
  intros Hr Hnd Hi Hf. unfold row_label.
  eapply routed_views; try done.
  - by eapply list_elem_of_lookup_2.
  - apply view_single.
  - lia.
  - by apply view_self.
Qed.

Lemma routed_Predict_labels os d u :
  routed d u → NoDup (attributes u) →
  Predict_labels os d u = sequence (row_label d u <$> storage u).
Proof.
  intros Hr Hnd. unfold Predict_labels. f_equal.
  rewrite <- (imap_const (row_label d u)). apply imap_ext. intros i r Hi. unfold const.
  destruct (routed_row_label (os i) d u i r (S (height d)) 0 Hr Hnd Hi) as (l & -> & ->);
    [lia|done].
Qed.

Lemma routed_Predict_Ok os d u :
  routed d u → NoDup (attributes u) → ∃ p, Predict os d u = Ok p.
Proof.
  intros Hr Hnd. unfold Predict.
  destruct (Predict_labels_all_Ok os d u) as (labels & -> & _); [|by eexists].
  intros i Hi. apply lookup_lt_is_Some_2 in Hi as [r Hr'].
  destruct (routed_row_label (os i) d u i r (S (height d)) 0 Hr Hnd Hr') as (l & _ & ->);
    [lia|eauto].
Qed.

Lemma sequence_fmap_hits {A} (f : A → result string) (cls : A → string) rows labels :
  sequence (f <$> rows) = Ok labels →
  length labels = length rows ∧
  length (filter (λ p, p.1 = p.2) (zip (cls <$> rows) labels))
    = length (filter (λ r, f r = Ok (cls r)) rows).
Proof.
  revert labels. induction rows as [|r rows IH]; intros labels; simpl.
  - intros [= <-]. done.
  - intros H. apply bind_Ok in H as (l & Hl & H). apply bind_Ok in H as (ls & Hls & H).
    injection H as <-. destruct (IH _ Hls) as [Hlen Hc]. simpl. split; [by rewrite Hlen|].
    rewrite !filter_cons. simpl. rewrite Hl.
    destruct (decide (cls r = l)) as [->|Hne].
    + rewrite decide_True by done. simpl. f_equal. exact Hc.
    + rewrite decide_False by congruence. exact Hc.
Qed.

(** For routed rows the accuracy of a prediction is the number of rows
    labelled with their class over the number of rows. *)
Lemma routed_accuracy os d u p :
  routed d u → NoDup (attributes u) → Predict os d u = Ok p →
  computeAccuracy p u = {| correct := hits d u; total := Rows u |}.
Proof.
  intros Hr Hnd Hp. unfold Predict in Hp. rewrite routed_Predict_labels in Hp by done.
  destruct (sequence _) as [labels| |] eqn:Hs; simpl in Hp; [|done..].
  injection Hp as <-.
  destruct (sequence_fmap_hits _ (GetClass u) _ _ Hs) as [Hlen Hc].
  unfold computeAccuracy, GetConfusionMatrix. rewrite predictions_classes.
  unfold GetAccuracy, hits, Rows. f_equal; [done|].
  rewrite length_zip_with, length_fmap. lia.
Qed.

(** ** Counting by groups *)

Lemma length_filter_split {A} (P R : A → Prop) `{∀ x, Decision (P x)} `{∀ x, Decision (R x)}
    (l : list A) :
  length (filter P l)
    = (length (filter P (filter R l)) + length (filter P (filter (λ x, ¬ R x) l)))%nat.
Proof.
  induction l as [|x l IH]; [done|].
  rewrite !(filter_cons _ x l).
  destruct (decide (R x)) as [HR|HR].
  - rewrite (decide_False (P := ¬ R x)) by tauto.
    rewrite (filter_cons _ x). destruct (decide (P x)); simpl; lia.
  - rewrite (decide_True (P := ¬ R x)) by done.
    rewrite (filter_cons _ x). destruct (decide (P x)); simpl; lia.
Qed.

Lemma filter_key_other {A} (key : A → string) k k' (l : list A) :
  k' ≠ k →
  filter (λ x, key x = k') (filter (λ x, ¬ key x = k) l) = filter (λ x, key x = k') l.
Proof.
  intros Hne. induction l as [|x l IH]; [done|].
  rewrite (filter_cons (λ x, ¬ key x = k)), (filter_cons (λ x, key x = k') x l).
  destruct (decide (key x = k')) as [Hx|Hx].
  - rewrite decide_True by congruence. rewrite filter_cons_True by done. by rewrite IH.
  - destruct (decide (¬ key x = k)); [rewrite filter_cons_False by done|]; apply IH.
Qed.

Lemma filter_key_same {A} (key : A → string) k (l : list A) :
  filter (λ x, key x = k) (filter (λ x, ¬ key x = k) l) = [].
Proof.
  induction l as [|x l IH]; [done|].
  rewrite (filter_cons (λ x, ¬ key x = k)).
  destruct (decide (¬ key x = k)); [rewrite filter_cons_False by done|]; apply IH.
Qed.

(** If one predicate holds at least as often as another within every
    group of equal key, it holds at least as often overall. *)
Lemma count_by_key {A} (key : A → string) (P Q : A → Prop)
    `{∀ x, Decision (P x)} `{∀ x, Decision (Q x)} (l : list A) :
  (∀ k, length (filter P (filter (λ x, key x = k) l))
          ≤ length (filter Q (filter (λ x, key x = k) l)))%nat →
  (length (filter P l) ≤ length (filter Q l))%nat.
Proof.
  remember (length l) as n eqn:Hn. revert l Hn.
  induction n as [n IH] using lt_wf_ind. intros l -> Hk.
  destruct l as [|x l]; [done|].
  set (k := key x).
  rewrite (length_filter_split P (λ y, key y = k)), (length_filter_split Q (λ y, key y = k)).
  pose proof (Hk k) as Hgroup.
  assert (length (filter P (filter (λ y, ¬ key y = k) (x :: l)))
          ≤ length (filter Q (filter (λ y, ¬ key y = k) (x :: l))))%nat as Hrest; [|lia].
  eapply IH; [|done|].
  - rewrite filter_cons_False by (subst k; tauto).
    pose proof (length_filter (λ y, ¬ key y = k) l). simpl. lia.
  - intros k'. destruct (decide (k' = k)) as [->|Hne].
    + by rewrite filter_key_same.
    + rewrite filter_key_other by done. apply Hk.
Qed.

Lemma length_filter_fmap {A B} (f : A → B) (P : A → Prop) (Q : B → Prop)
    `{∀ x, Decision (P x)} `{∀ y, Decision (Q y)} (l : list A) :
  (∀ x, x ∈ l → P x ↔ Q (f x)) →
  length (filter P l) = length (filter Q (f <$> l)).
Proof.
  induction l as [|x l IH]; intros Hl; [done|].
  rewrite fmap_cons, !filter_cons.
  assert (length (filter P l) = length (filter Q (f <$> l))) as IH'.
  { apply IH. intros y Hy. apply Hl. by right. }
  pose proof (Hl x (list_elem_of_here _ _)) as Hx.
  destruct (decide (P x)), (decide (Q (f x))); simpl; try tauto; by rewrite IH'.
Qed.

Lemma GetClass_drop_column u j rows r :
  j ≠ ClassIndex u → GetClass (drop_column u j rows) (delete j r) = GetClass u r.
Proof.
  intros Hj. unfold GetClass. simpl. case_decide.
  - rewrite cell_delete_ge by lia. f_equal. lia.
  - apply cell_delete_lt. lia.
Qed.

(** The rows of a group get from the node the labels the child under the
    group's value gives them. *)
Lemma group_hits d u ch a j k c :
  NoDup (attributes u) →
  Children d = Some ch → SplitAttr d = Some a →
  index_of a (attributes u) = Some j → j ≠ ClassIndex u →
  ch !! k = Some c →
  routed c (drop_column u j (delete j <$> filter (λ r, cell j r = k) (storage u))) →
  length (filter (λ r, row_label d u r = Ok (GetClass u r))
            (filter (λ r, cell j r = k) (storage u)))
  = hits c (drop_column u j (delete j <$> filter (λ r, cell j r = k) (storage u))).
Proof.
  intros Hnd Hch Ha Hj Hcls Hc Hr.
  set (s := drop_column u j (delete j <$> filter (λ r, cell j r = k) (storage u))) in *.
  unfold hits. change (storage s) with (delete j <$> filter (λ r, cell j r = k) (storage u)).
  apply length_filter_fmap. intros r [Hk Hin]%list_elem_of_filter.
  assert (GetClass s (delete j r) = GetClass u r) as -> by (by apply GetClass_drop_column).
  assert (row_label d u r = row_label c s (delete j r)) as ->; [|done].
  pose proof (height_child _ _ _ _ Hch Hc) as Hh.
  unfold row_label at 1. simpl.
  unfold Predict_step. rewrite Hch, Ha. simpl. rewrite Hj.
  unfold GetStringFromSysVal, Get. simpl. rewrite Hk, Hc.
  assert (NoDup (attributes s)) as Hnds by (by apply drop_column_NoDup).
  assert (delete j r ∈ storage s) as Hins.
  { simpl. apply list_elem_of_fmap. exists r. split; [done|]. by apply list_elem_of_filter. }
  assert (view (single u r) 0 s (delete j r)) as Hv1.
  { exists r. split; [done|]. simpl. by eapply projects_delete. }
  destruct (routed_views c s (delete j r)
              (single u r) 0 (λ _ l, l) 1 (height d)
              (single s (delete j r)) 0 (λ _ l, l) 0 (S (height c))
              Hr Hnds Hins Hv1 Hh (view_single _ _) (Nat.lt_succ_diag_r _))
    as (l & -> & Hl).
  unfold row_label. by rewrite Hl.
Qed.

Lemma Prune_rule os d u ch a sub pruned p1 p0 :
  Children d = Some ch → SplitAttr d = Some a →
  DecomposeOnAttributeValues u a = Some sub →
  gather (map_imap (λ k child, Some
            match sub !! k with
            | None => Ok child
            | Some s => Prune (below k os) child s
            end) ch) = Ok pruned →
  Predict (os []) (with_children d (Some pruned)) u = Ok p1 →
  Predict (os []) (with_children d None) u = Ok p0 →
  Prune os d u = Ok (if acc_lt (computeAccuracy p0 u) (computeAccuracy p1 u)
                     then with_children d (Some pruned) else with_children d None).
Proof.
  destruct d as [ty ch' a' cd cl ca]. simpl. intros -> -> Hd Hg Hp1 Hp0.
  rewrite Hd. simpl. rewrite Hg. simpl.
  unfold with_children in *. simpl in *. rewrite Hp1. simpl. rewrite Hp0. done.
Qed.

Lemma hits_le_rows d u : (hits d u ≤ Rows u)%nat.
Proof. apply length_filter. Qed.

(** On routed validation rows [Prune] returns a tree, the rows are routed
    through it as well, and it labels at least as many of them with their
    class. *)
Lemma Prune_routed d :
  ∀ os u, NoDup (attributes u) → routed d u →
  ∃ d', Prune os d u = Ok d' ∧ routed d' u ∧ (hits d u ≤ hits d' u)%nat.
Proof.
  induction d as [d IH] using node_children_ind. intros os u Hnd Hr.
  inversion Hr as [? ? Hch| ? ? Ha |? ? ch a j sub Hch Ha Hj Hcls Hd Hkids]; subst.
  { exists d. split_and!; [|done|done]. destruct d as [ty [ch|] a cd cl ca]; done. }
  { exists d. split_and!; [|done|done].
    destruct d as [ty [ch|] [a|] cd cl ca]; simpl in *; done. }
  assert (∀ k s, sub !! k = Some s → ∃ c c',
            ch !! k = Some c ∧ Prune (below k os) c s = Ok c' ∧
            routed c s ∧ routed c' s ∧ (hits c s ≤ hits c' s)%nat ∧
            s = drop_column u j (delete j <$> filter (λ r, cell j r = k) (storage u)))
    as Hkey.
  { intros k s Hs. destruct (Hkids k s Hs) as (c & Hc & Hrc).
    destruct (Decompose_lookup _ _ _ _ _ Hd Hs) as (j' & Hj' & _ & Hs').
    assert (j' = j) as -> by congruence.
    destruct (IH ch k c Hch Hc (below k os) s) as (c' & Hp & Hrc' & Hle); try done.
    { subst s. by apply drop_column_NoDup. }
    exists c, c'. by split_and!. }
  set (rs := map_imap (λ k child, Some
            match sub !! k with
            | None => Ok child
            | Some s => Prune (below k os) child s
            end) ch).
  assert (gather rs = Ok (omap get_ok rs)) as Hg.
  { apply gather_ok_intro. intros k r. unfold rs. rewrite map_lookup_imap.
    destruct (ch !! k) as [c|] eqn:Hc; simpl; [|done]. intros [= <-].
    destruct (sub !! k) as [s|] eqn:Hs; [|done].
    destruct (Hkey k s Hs) as (c0 & c' & Hc0 & Hp & _).
    assert (c0 = c) as -> by congruence. by rewrite Hp. }
  set (pruned := omap get_ok rs) in *.
  assert (∀ k s, sub !! k = Some s → ∃ c c',
            ch !! k = Some c ∧ pruned !! k = Some c' ∧
            routed c s ∧ routed c' s ∧ (hits c s ≤ hits c' s)%nat ∧
            s = drop_column u j (delete j <$> filter (λ r, cell j r = k) (storage u)))
    as Hkey'.
  { intros k s Hs. destruct (Hkey k s Hs) as (c & c' & Hc & Hp & ? & ? & ? & ?).
    exists c, c'. split_and!; try done.
    unfold pruned, rs. by rewrite lookup_omap, map_lookup_imap, Hc, Hs; simpl; rewrite Hp. }
  set (d1 := with_children d (Some pruned)). set (d0 := with_children d None).
  assert (routed d1 u) as Hr1.
  { eapply (routed_rule d1 u pruned a j sub); try done.
    intros k s Hs. destruct (Hkey' k s Hs) as (c & c' & _ & Hc' & _ & Hrc' & _). eauto. }
  assert (routed d0 u) as Hr0 by (by apply routed_leaf).
  destruct (routed_Predict_Ok (os []) d1 u Hr1 Hnd) as [p1 Hp1].
  destruct (routed_Predict_Ok (os []) d0 u Hr0 Hnd) as [p0 Hp0].
  pose proof (Prune_rule os d u ch a sub pruned p1 p0 Hch Ha Hd Hg Hp1 Hp0) as Hprune.
  assert (hits d u ≤ hits d1 u)%nat as Hle1.
  { unfold hits. apply (count_by_key (cell j)). intros k.
    destruct (sub !! k) as [s|] eqn:Hs.
    - destruct (Hkey' k s Hs) as (c & c' & Hc & Hc' & Hrc & Hrc' & Hle & ->).
      rewrite (group_hits d u ch a j k c), (group_hits d1 u pruned a j k c'); done.
    - assert (filter (λ r, cell j r = k) (storage u) = []) as ->; [|done].
      pose proof Hd as Hd'. unfold DecomposeOnAttributeValues in Hd'. rewrite Hj in Hd'.
      injection Hd' as <-. rewrite lookup_fmap, group_rows_lookup in Hs.
      by destruct (filter _ (storage u)). }
  rewrite Hprune. rewrite (routed_accuracy _ _ _ _ Hr1 Hnd Hp1).
  rewrite (routed_accuracy _ _ _ _ Hr0 Hnd Hp0).
  pose proof (hits_le_rows d0 u). pose proof (hits_le_rows d1 u).
  unfold acc_lt. simpl. eexists. split; [done|].
  destruct (decide (0 < Rows u ∧ hits d0 u * Rows u < hits d1 u * Rows u)%nat) as [[? ?]|Hn].
  - rewrite !bool_decide_eq_true_2 by done. simpl. by split.
  - assert (bool_decide (0 < Rows u)%nat && bool_decide (0 < Rows u)%nat &&
            bool_decide (hits d0 u * Rows u < hits d1 u * Rows u)%nat = false) as ->.
    { repeat case_bool_decide; simpl; try done. exfalso. by apply Hn. }
    split; [done|]. change (hits d u ≤ hits d0 u)%nat.
    destruct (decide (0 < Rows u)%nat); [|lia].
    assert (¬ (hits d0 u * Rows u < hits d1 u * Rows u)%nat) by tauto. nia.
Qed.

(** C5, as amended: on validation rows that are routed through the tree
    (every value they show at a node they reach has a child there, the
    split attributes are columns of the rows other than the class, and no
    attribute names two columns) [Prune] returns a tree whose accuracy on
    those rows is not less than the accuracy of the tree it was given. *)
Theorem prune_keeps_accuracy_on_routed_rows po os os' d u :
  NoDup (attributes u) → routed d u →
  ∃ d' p p',
    Prune po d u = Ok d' ∧ Predict os d u = Ok p ∧ Predict os' d' u = Ok p' ∧
    acc_lt (computeAccuracy p' u) (computeAccuracy p u) = false.
Proof.
  intros Hnd Hr.
  destruct (Prune_routed d po u Hnd Hr) as (d' & Hp & Hr' & Hle).
  destruct (routed_Predict_Ok os d u Hr Hnd) as [p Hpred].
  destruct (routed_Predict_Ok os' d' u Hr' Hnd) as [p' Hpred'].
  exists d', p, p'. split_and!; try done.
  rewrite (routed_accuracy _ _ _ _ Hr Hnd Hpred), (routed_accuracy _ _ _ _ Hr' Hnd Hpred').
  unfold acc_lt. simpl. pose proof (hits_le_rows d u). pose proof (hits_le_rows d' u).
  repeat case_bool_decide; simpl; try done. nia.
Qed.

Lemma sample_seen_routed : routed Sample.inner Sample.seen.
Proof.
  eapply (routed_rule Sample.inner Sample.seen _ Sample.B 0);
    [reflexivity|reflexivity|reflexivity|done|reflexivity|].
  intros k s Hs. rewrite lookup_fmap, group_rows_lookup in Hs.
  simpl in Hs. rewrite !filter_cons, filter_nil in Hs.
  change (cell 0 ["q"; "d"; "0"]) with "q" in Hs.
  change (cell 0 ["p"; "d"; "0"]) with "p" in Hs.
  change (cell 0 ["q"; "d"; "1"]) with "q" in Hs.
  destruct (decide ("q" = k)) as [<-|Hq].
  - eexists. split; [vm_compute; reflexivity|]. by apply routed_leaf.
  - destruct (decide ("p" = k)) as [<-|Hp]; [|done].
    eexists. split; [vm_compute; reflexivity|]. by apply routed_leaf.
Qed.

Lemma prune_keeps_accuracy_on_routed_rows_witness :
  ∃ d' p p',
    Prune Sample.prune_forwards Sample.inner Sample.seen = Ok d' ∧
    Predict Sample.predict_forwards Sample.inner Sample.seen = Ok p ∧
    Predict Sample.predict_backwards d' Sample.seen = Ok p' ∧
    acc_lt (computeAccuracy p' Sample.seen) (computeAccuracy p Sample.seen) = false.
Proof.
  apply (prune_keeps_accuracy_on_routed_rows Sample.prune_forwards Sample.predict_forwards
           Sample.predict_backwards Sample.inner Sample.seen).
  - apply (bool_decide_unpack _). vm_compute. exact I.
  - apply sample_seen_routed.
Defined.

(** C5 fails as stated: two of the three validation rows have the value
    "xa" of A, for which the root has no child; before pruning they fall
    through to the child "y" and get their class "1", pruning collapses
    first that child and then the root to the label "0", and the accuracy
    on the validation rows drops from 2/3 to 1/3, whatever the iteration
    order. *)
Lemma prune_degrades_accuracy :
  Prune Sample.prune_forwards Sample.tree Sample.validation
    = Ok (with_children Sample.tree None) ∧
  Prune Sample.prune_backwards Sample.tree Sample.validation
    = Ok (with_children Sample.tree None) ∧
  (λ p, computeAccuracy p Sample.validation)
    <$> Predict Sample.predict_forwards Sample.tree Sample.validation
    = Ok {| correct := 2; total := 3 |} ∧
  (λ p, computeAccuracy p Sample.validation)
    <$> Predict Sample.predict_backwards Sample.tree Sample.validation
    = Ok {| correct := 2; total := 3 |} ∧
  (λ p, computeAccuracy p Sample.validation)
    <$> Predict Sample.predict_forwards (with_children Sample.tree None) Sample.validation
    = Ok {| correct := 1; total := 3 |} ∧
  acc_lt {| correct := 1; total := 3 |} {| correct := 2; total := 3 |} = true.
Proof. split_and!; vm_compute; reflexivity. Qed.

(** * Further properties of the code *)

(** ** Induction *)

Lemma map_size_1_singleton {A} (m : gmap string A) :
  size m = 1%nat → ∃ k x, m = {[k := x]}.
Proof.
  intros Hs. rewrite <- length_map_to_list in Hs.
  destruct (map_to_list m) as [|[k x] [|??]] eqn:Hl; simpl in Hs; try lia.
  exists k, x. rewrite <- (list_to_map_to_list m), Hl. simpl. by rewrite insert_empty.
Qed.

Lemma CountClassValues_lookup from k :
  CountClassValues from !! k =
    match filter (λ r, GetClass from r = k) (storage from) with
    | [] => None
    | g => Some (Z.of_nat (length g))
    end.
Proof.
  unfold CountClassValues. induction (storage from) as [|row rows IH]; simpl.
  - by rewrite lookup_empty.
  - unfold count_value at 1. rewrite filter_cons.
    destruct (decide (GetClass from row = k)) as [->|Hne].
    + rewrite lookup_insert_eq, IH. destruct (filter _ rows); simpl; f_equal; lia.
    + by rewrite lookup_insert_ne.
Qed.

(** X1: a partition in which one class occurs induces a leaf labelled with
    that class, whose histogram counts all rows of the partition under it;
    the generator is not asked. *)
Theorem single_class_leaf os from g :
  is_order (os []) → size (CountClassValues from) = 1%nat →
  ∃ c, Forall (λ r, GetClass from r = c) (storage from) ∧
       InferID3Tree os from g
         = Ok (mkNode LeafNode None None {[c := Z.of_nat (Rows from)]} c (GetClassAttrPtr from)).
Proof.
  intros Ho Hs. destruct (map_size_1_singleton _ Hs) as (c & n & Hm).
  assert (Forall (λ r, GetClass from r = c) (storage from)) as Hall.
  { apply Forall_forall. intros r Hr.
    destruct (decide (GetClass from r = c)) as [|Hne]; [done|]. exfalso.
    pose proof (CountClassValues_lookup from (GetClass from r)) as Hl.
    rewrite Hm, lookup_singleton_ne in Hl by done.
    destruct (filter _ (storage from)) as [|??] eqn:Hf; [|done].
    assert (r ∈ filter (λ r0, GetClass from r0 = GetClass from r) (storage from)) as Hin
      by (by apply list_elem_of_filter).
    rewrite Hf in Hin. by apply elem_of_nil in Hin. }
  assert (n = Z.of_nat (Rows from)) as ->.
  { pose proof (CountClassValues_lookup from c) as Hl.
    rewrite Hm, lookup_singleton_eq in Hl.
    assert (filter (λ r, GetClass from r = c) (storage from) = storage from) as Hf.
    { clear -Hall. induction Hall as [|r rs Hr _ IH]; [done|].
      by rewrite filter_cons_True, IH. }
    rewrite Hf in Hl. destruct (storage from) eqn:Hst; [done|].
    injection Hl as ->. unfold Rows. by rewrite Hst. }
  exists c. split; [done|].
  unfold InferID3Tree. simpl. rewrite decide_True by done.
  destruct (lastKey_singleton (os []) _ Ho Hs) as (k & -> & Hk).
  rewrite Hm in Hk |- *. unfold map_keys in Hk. rewrite map_to_list_singleton in Hk.
  by injection Hk as <-.
Qed.

Lemma single_class_leaf_witness :
  ∃ c, Forall (λ r, GetClass Sample.same_class r = c) (storage Sample.same_class) ∧
       InferID3Tree Sample.forwards Sample.same_class Sample.first_column
         = Ok (mkNode LeafNode None None {[c := Z.of_nat (Rows Sample.same_class)]} c
                      (GetClassAttrPtr Sample.same_class)).
Proof.
  apply (single_class_leaf Sample.forwards Sample.same_class Sample.first_column).
  - apply is_order_id.
  - vm_compute. reflexivity.
Defined.

(** X2: the children of an induced node are exactly the groups of the
    decomposition on its split attribute, the attribute the generator
    named: each group has one child under its value, the tree induced from
    that group, and there is no other child. *)
Theorem induced_children os from g t ch :
  InferID3Tree os from g = Ok t → Children t = Some ch →
  ∃ a sub,
    g from = Some a ∧ SplitAttr t = Some a ∧
    DecomposeOnAttributeValues from a = Some sub ∧
    ∀ k, match sub !! k with
         | Some s => ∃ c, ch !! k = Some c ∧ InferID3Tree (below k os) s g = Ok c
         | None => ch !! k = None
         end.
Proof.
  intros Ht Hch. unfold InferID3Tree in Ht.
  apply InferID3Tree_rec_cases in Ht as (_ & _ & Hc).
  destruct Hc as [(_ & _ & ? & _)|(_ & _ & [(_ & _ & ? & _)|[(_ & _ & _ & ? & _)|Hc]])];
    try congruence.
  destruct Hc as (_ & _ & a & sub & ch' & Hg & Hd & Hgather & Hch' & Ha).
  assert (ch' = ch) as -> by congruence.
  exists a, sub. split_and!; try done.
  intros k. pose proof (gather_imap_lookup _ _ _ k Hgather) as Hl.
  destruct (sub !! k) as [s|] eqn:Hs; [|done].
  destruct Hl as (c & Hc & Hl). exists c. split; [done|].
  unfold InferID3Tree. by rewrite (Decompose_shrinks _ _ _ _ _ Hd Hs).
Qed.

Lemma induced_children_witness :
  ∃ a sub,
    Sample.first_column Sample.train = Some a ∧ SplitAttr Sample.tree = Some a ∧
    DecomposeOnAttributeValues Sample.train a = Some sub ∧
    ∀ k, match sub !! k with
         | Some s => ∃ c, default ∅ (Children Sample.tree) !! k = Some c ∧
                          InferID3Tree (below k Sample.forwards) s Sample.first_column = Ok c
         | None => default ∅ (Children Sample.tree) !! k = None
         end.
Proof.
  apply (induced_children Sample.forwards Sample.train Sample.first_column Sample.tree).
  - vm_compute. reflexivity.
  - reflexivity.
Defined.

Lemma sample_inner_in_tree : in_tree Sample.inner Sample.tree.
Proof.
  eapply (in_tree_child _ Sample.tree _ "y" Sample.inner); [reflexivity| |constructor].
  vm_compute. reflexivity.
Qed.

Lemma InferID3Tree_rec_node_ok fuel g :
  ∀ os from t n, InferID3Tree_rec fuel os from g = Ok t → in_tree n t → node_ok n.
Proof.
  induction fuel as [|fuel IH]; intros os from t n Ht Hn; [done|].
  apply InferID3Tree_rec_cases in Ht as (_ & _ & Hc).
  inversion Hn as [|? ch k c Hch Hk Hin]; subst.
  - unfold node_ok.
    destruct Hc as [(_ & -> & -> & -> & _)
                   |(_ & _ & [(_ & -> & -> & ->)|[(_ & _ & -> & -> & ->)|Hc]])]; try done.
    destruct Hc as (_ & -> & a & sub & ch & _ & _ & _ & -> & ->). done.
  - destruct Hc as [(_ & _ & ? & _)|(_ & _ & [(_ & _ & ? & _)|[(_ & _ & _ & ? & _)|Hc]])];
      try congruence.
    destruct Hc as (_ & _ & a & sub & ch' & _ & _ & Hgather & Hch' & _).
    assert (ch' = ch) as -> by congruence.
    pose proof (gather_imap_lookup _ _ _ k Hgather) as Hl.
    destruct (sub !! k) as [s|]; [|congruence].
    destruct Hl as (c' & Hc' & Hl). assert (c' = c) as -> by congruence.
    by eapply IH.
Qed.

(** X3: in every node of an induced tree the children map is nil exactly
    when the split attribute is nil, and a node of type Leaf has no
    children: [Prune] and the rendering never meet children without a split
    attribute. *)
Theorem induced_nodes_ok os from g t n :
  InferID3Tree os from g = Ok t → in_tree n t → node_ok n.
Proof. unfold InferID3Tree. apply InferID3Tree_rec_node_ok. Qed.

Lemma induced_nodes_ok_witness : node_ok Sample.inner.
Proof.
  apply (induced_nodes_ok Sample.forwards Sample.train Sample.first_column Sample.tree).
  - vm_compute. reflexivity.
  - apply sample_inner_in_tree.
Defined.

Lemma map_fold_max_le {A} (f : A → nat) (m : gmap string A) b :
  (∀ k x, m !! k = Some x → f x ≤ b)%nat →
  (map_fold (λ _ c acc, f c `max` acc) 0 m ≤ b)%nat.
Proof.
  apply (map_fold_weak_ind (λ r (m : gmap string A),
    (∀ k x, m !! k = Some x → f x ≤ b) → r ≤ b)%nat).
  - lia.
  - intros i x m' r Hi IH Hb.
    assert (f x ≤ b)%nat by (apply (Hb i); by rewrite lookup_insert_eq).
    assert (r ≤ b)%nat; [|lia].
    apply IH. intros k y Hk. apply (Hb k). rewrite lookup_insert_ne; [done|].
    intros ->. congruence.
Qed.

Lemma height_le d ch b :
  Children d = Some ch → (∀ k c, ch !! k = Some c → height c ≤ b)%nat →
  (height d ≤ S b)%nat.
Proof.
  intros Hch Hb. destruct d as [ty ch' sa cd cl ca]; simpl in *. subst ch'.
  pose proof (map_fold_max_le height ch b Hb). lia.
Qed.

Lemma InferID3Tree_rec_height fuel g :
  ∀ os from t, InferID3Tree_rec fuel os from g = Ok t →
  (height t ≤ length (attributes from))%nat.
Proof.
  induction fuel as [|fuel IH]; intros os from t Ht; [done|].
  apply InferID3Tree_rec_cases in Ht as (_ & _ & Hc).
  destruct (Children t) as [ch|] eqn:Hch.
  2:{ destruct t; simpl in *; subst; simpl; lia. }
  destruct Hc as [(_ & _ & ? & _)|(_ & _ & [(_ & _ & ? & _)|[(_ & _ & _ & ? & _)|Hc]])];
    try congruence.
  destruct Hc as (_ & _ & a & sub & ch' & _ & Hd & Hgather & Hch' & _).
  assert (ch' = ch) as -> by congruence.
  destruct (length (attributes from)) as [|n] eqn:Hlen.
  { exfalso. unfold DecomposeOnAttributeValues in Hd.
    destruct (GetAttrIndex from (Some a)) as [j|] eqn:Hj; [|done].
    apply index_of_lt in Hj. lia. }
  apply (height_le t ch n Hch). intros k c Hk.
  pose proof (gather_imap_lookup _ _ _ k Hgather) as Hl.
  destruct (sub !! k) as [s|] eqn:Hs; [|congruence].
  destruct Hl as (c' & Hc' & Hl). assert (c' = c) as -> by congruence.
  apply IH in Hc'. pose proof (Decompose_shrinks _ _ _ _ _ Hd Hs). lia.
Qed.

(** X4: an induced tree is at most as high as its partition has columns:
    every split uses up one column. *)
Theorem induced_height os from g t :
  InferID3Tree os from g = Ok t → (height t ≤ length (attributes from))%nat.
Proof. unfold InferID3Tree. apply InferID3Tree_rec_height. Qed.

Lemma induced_height_witness : (height Sample.tree ≤ length (attributes Sample.train))%nat.
Proof.
  apply (induced_height Sample.forwards Sample.train Sample.first_column).
  vm_compute. reflexivity.
Defined.

Lemma InferID3Tree_rec_label fuel g :
  ∀ os from t n, (∀ p, is_order (os p)) → storage from ≠ [] →
  InferID3Tree_rec fuel os from g = Ok t → in_tree n t →
  top_count (ClassDist n) (Class n).
Proof.
  induction fuel as [|fuel IH]; intros os from t n Ho Hrows Ht Hn; [done|].
  pose proof Ht as Ht'.
  apply InferID3Tree_rec_cases in Ht as (Hdist & _ & Hc).
  assert (size (CountClassValues from) ≠ 0%nat) as Hsz.
  { destruct (storage from) as [|r rs] eqn:Hst; [done|]. intros Hz.
    apply map_size_empty_inv in Hz. pose proof (CountClassValues_lookup from (GetClass from r)) as Hl.
    rewrite Hz, lookup_empty, Hst, filter_cons_True in Hl by done. done. }
  inversion Hn as [|? ch k c Hch Hk Hin]; subst.
  - rewrite Hdist.
    destruct Hc as [(Hs & _ & _ & _ & ->)|(_ & -> & _)].
    + destruct (lastKey_singleton (os []) _ (Ho _) Hs) as (k & -> & Hk).
      destruct (map_size_1_singleton _ Hs) as (k' & x & Hm).
      rewrite Hm in Hk |- *. unfold map_keys in Hk. rewrite map_to_list_singleton in Hk.
      injection Hk as <-. exists x. simpl. rewrite lookup_singleton_eq. split; [done|].
      intros k m [<- <-]%lookup_singleton_Some. lia.
    + apply maxClass_first_top; [done|]. by apply histogram_has_positive.
  - destruct Hc as [(_ & _ & ? & _)|(_ & _ & [(_ & _ & ? & _)|[(_ & _ & _ & ? & _)|Hc]])];
      try congruence.
    destruct Hc as (_ & _ & a & sub & ch' & _ & Hd & Hgather & Hch' & _).
    assert (ch' = ch) as -> by congruence.
    pose proof (gather_imap_lookup _ _ _ k Hgather) as Hl.
    destruct (sub !! k) as [s|] eqn:Hs; [|congruence].
    destruct Hl as (c' & Hc' & Hl). assert (c' = c) as -> by congruence.
    eapply (IH (below k os) s c n); try done.
    + intros p. apply Ho.
    + destruct (Decompose_lookup _ _ _ _ _ Hd Hs) as (j & _ & Hne & ->). simpl.
      intros Hnil. apply fmap_nil_inv in Hnil. done.
Qed.

(** X5: in a tree induced from a partition with at least one row, the
    label of every node is a class of its own histogram, one with the
    highest count there. *)
Theorem induced_labels_top os from g t n :
  (∀ p, is_order (os p)) → (0 < Rows from)%nat →
  InferID3Tree os from g = Ok t → in_tree n t →
  top_count (ClassDist n) (Class n).
Proof.
  intros Ho Hrows. unfold InferID3Tree. apply InferID3Tree_rec_label; [done|].
  unfold Rows in Hrows. destruct (storage from); simpl in *; [lia|done].
Qed.

Lemma induced_labels_top_witness : top_count (ClassDist Sample.inner) (Class Sample.inner).
Proof.
  apply (induced_labels_top Sample.forwards Sample.train Sample.first_column Sample.tree).
  - intros p. apply is_order_id.
  - vm_compute. lia.
  - vm_compute. reflexivity.
  - apply sample_inner_in_tree.
Defined.

(** ** Prediction *)

Lemma sequence_imap_const {A B} (b : B) (l : list A) :
  sequence (imap (λ _ _, Ok b) l) = Ok (replicate (length l) b).
Proof.
  apply sequence_Ok. rewrite fmap_replicate.
  induction l as [|x l IH]; [done|].
  simpl. f_equal. rewrite <- IH. by apply imap_ext.
Qed.

(** X6: a node without children, or whose split attribute the rows do not
    have, labels every row with its own class, whatever the rows hold. *)
Theorem predict_at_root os d what :
  Children d = None ∨ GetAttrIndex what (SplitAttr d) = None →
  Predict_labels os d what = Ok (replicate (Rows what) (Class d)).
Proof.
  intros H. unfold Predict_labels, Rows.
  rewrite <- (sequence_imap_const (Class d) (storage what)). f_equal.
  apply imap_ext. intros i r _. simpl. unfold Predict_step.
  destruct H as [->| ->]; [done|]. by destruct (Children d).
Qed.

Lemma predict_at_root_witness :
  Predict_labels Sample.predict_forwards Sample.tree Sample.without_A
    = Ok (replicate (Rows Sample.without_A) (Class Sample.tree)).
Proof.
  apply (predict_at_root Sample.predict_forwards Sample.tree Sample.without_A).
  right. vm_compute. reflexivity.
Defined.

Lemma Predict_step_child o what i cur next :
  Predict_step o what i cur = Descend next →
  ∃ ch k, Children cur = Some ch ∧ ch !! k = Some next.
Proof.
  unfold Predict_step. destruct (Children cur) as [ch|]; [|done].
  destruct (GetAttrIndex what (SplitAttr cur)) as [j|]; [|done].
  destruct (ch !! _) as [c|] eqn:Hc; [intros [= <-]; eauto|].
  destruct (ch !! _) as [c|] eqn:Hc' in |- *; [intros [= <-]; eauto|done].
Qed.

Lemma Predict_last_in_tree fuel os what i cur turn n :
  Predict_last fuel os what i cur turn = Ok n → in_tree n cur.
Proof.
  revert cur turn. induction fuel as [|fuel IH]; intros cur turn; simpl; [done|].
  destruct (Predict_step (os turn) what i cur) as [l|next|] eqn:Hstep; [|intros H|done].
  - intros [= <-]. constructor.
  - apply Predict_step_child in Hstep as (ch & k & Hch & Hk).
    eapply in_tree_child; eauto.
Qed.

(** X7: [Predict] writes one label per row, and every label it writes is
    the class of a node of the tree: it makes up no label. *)
Theorem predict_labels_from_tree os d what labels :
  Predict_labels os d what = Ok labels →
  length labels = Rows what ∧
  Forall (λ l, ∃ n, in_tree n d ∧ Class n = l) labels.
Proof.
  intros H. split; [by eapply Predict_labels_length|].
  apply Forall_lookup. intros i l Hl.
  pose proof (Predict_labels_lookup _ _ _ _ _ _ H Hl) as Hloop.
  rewrite Predict_loop_last in Hloop.
  destruct (Predict_last _ _ _ _ _ _) as [n| |] eqn:Hn; simpl in Hloop; [|done..].
  injection Hloop as <-. exists n. split; [|done]. by eapply Predict_last_in_tree.
Qed.

Lemma predict_labels_from_tree_witness :
  length ["1"; "1"; "1"] = Rows Sample.validation ∧
  Forall (λ l, ∃ n, in_tree n Sample.tree ∧ Class n = l) ["1"; "1"; "1"].
Proof.
  apply (predict_labels_from_tree Sample.predict_forwards Sample.tree Sample.validation).
  vm_compute. reflexivity.
Defined.

(** X8: on rows that are routed through the tree (every value they show
    has a child) [Predict] returns predictions, the same whatever the
    iteration orders of the two runs. *)
Theorem predict_routed_any_order os os' d u :
  NoDup (attributes u) → routed d u →
  ∃ p, Predict os d u = Ok p ∧ Predict os' d u = Ok p.
Proof.
  intros Hnd Hr. destruct (routed_Predict_Ok os d u Hr Hnd) as [p Hp].
  exists p. split; [done|]. rewrite <- Hp. unfold Predict.
  by rewrite !routed_Predict_labels.
Qed.

Lemma predict_routed_any_order_witness :
  ∃ p, Predict Sample.predict_forwards Sample.inner Sample.seen = Ok p ∧
       Predict Sample.predict_backwards Sample.inner Sample.seen = Ok p.
Proof.
  apply (predict_routed_any_order Sample.predict_forwards Sample.predict_backwards).
  - apply (bool_decide_unpack _). vm_compute. exact I.
  - apply sample_seen_routed.
Defined.

(** ** Pruning *)

Lemma only_children_changed_height d :
  ∀ d', only_children_changed d d' → (height d' ≤ height d)%nat.
Proof.
  induction d as [d IH] using node_children_ind. intros d' Hocc.
  inversion Hocc as [? ? E1 E2 E3 E4 E5 Hkids]; subst.
  destruct (Children d') as [ch'|] eqn:Hch'.
  2:{ destruct d'; simpl in *; subst; simpl; lia. }
  destruct (Hkids ch' eq_refl) as (ch & Hch & Hrel).
  destruct (height d) as [|h] eqn:Hh.
  { destruct d; simpl in *; subst; simpl in *; lia. }
  apply (height_le d' ch' h Hch'). intros k c' Hk.
  specialize (Hrel k). rewrite Hk in Hrel.
  inversion Hrel as [c ? Hcc' Hc|]; subst. symmetry in Hc.
  pose proof (IH ch k c Hch Hc c' Hcc'). pose proof (height_child _ _ _ _ Hch Hc). lia.
Qed.

(** X9: the tree [Prune] returns is not higher than the tree it was given. *)
Theorem prune_height os d using_ d' :
  Prune os d using_ = Ok d' → (height d' ≤ height d)%nat.
Proof. intros H. by eapply only_children_changed_height, Prune_only_children_changed. Qed.

Lemma prune_height_witness :
  (height (with_children Sample.tree None) ≤ height Sample.tree)%nat.
Proof.
  apply (prune_height Sample.prune_forwards Sample.tree Sample.validation).
  vm_compute. reflexivity.
Defined.

(** X10: pruning a second time with the same validation rows and the same
    iteration orders changes nothing. *)
Theorem prune_idempotent os d using_ d' :
  Prune os d using_ = Ok d' → Prune os d' using_ = Ok d'.
Proof.
  revert os using_ d'. induction d as [d IH] using node_children_ind.
  intros os u d' Hp.
  pose proof Hp as Hp'.
  apply Prune_cases in Hp' as [[_ ->]|[[_ ->]|Hc]]; [done..|].
  destruct Hc as (ch & a & sub & pruned & p1 & p0 & Hch & Ha & Hd & Hpr & Hp1 & Hp0 & Hd').
  destruct (acc_lt (computeAccuracy p0 u) (computeAccuracy p1 u)) eqn:Hacc; subst d'.
  2:{ destruct d; done. }
  set (d1 := with_children d (Some pruned)) in *.
  assert (gather (map_imap (λ k child, Some
            match sub !! k with
            | None => Ok child
            | Some s => Prune (below k os) child s
            end) pruned) = Ok pruned) as Hg.
  { assert (∀ k c', pruned !! k = Some c' →
              match sub !! k with
              | None => Ok c'
              | Some s => Prune (below k os) c' s
              end = Ok c') as Hfix.
    { intros k c' Hk. specialize (Hpr k).
      destruct (ch !! k) as [c|] eqn:Hc; [|congruence].
      destruct Hpr as (c'' & Hc'' & Hpc). assert (c'' = c') as -> by congruence.
      destruct (sub !! k) as [s|]; [|done]. by eapply IH. }
    rewrite gather_ok_intro.
    - f_equal. apply map_eq. intros k. rewrite lookup_omap, map_lookup_imap.
      destruct (pruned !! k) as [c'|] eqn:Hk; simpl; [|done]. by rewrite (Hfix k c' Hk).
    - intros k r. rewrite map_lookup_imap.
      destruct (pruned !! k) as [c'|] eqn:Hk; simpl; [|done].
      intros [= <-]. by rewrite (Hfix k c' Hk). }
  assert (with_children d1 (Some pruned) = d1) as E1 by done.
  assert (with_children d1 None = with_children d None) as E0 by done.
  assert (Predict (os []) (with_children d1 (Some pruned)) u = Ok p1) as H1 by (by rewrite E1).
  assert (Predict (os []) (with_children d1 None) u = Ok p0) as H0 by (by rewrite E0).
  rewrite (Prune_rule os d1 u pruned a sub pruned p1 p0 eq_refl Ha Hd Hg H1 H0).
  by rewrite Hacc, E1.
Qed.

Lemma prune_idempotent_witness :
  Prune Sample.prune_forwards (with_children Sample.tree None) Sample.validation
    = Ok (with_children Sample.tree None).
Proof.
  apply (prune_idempotent Sample.prune_forwards Sample.tree Sample.validation).
  vm_compute. reflexivity.
Defined.

(** X11: with validation rows that have the split attribute of the root
    but no row at all, [Prune] collapses the root to a leaf: 0/0 is not less
    than 0/0. *)
Theorem prune_without_rows os d using_ ch a j :
  storage using_ = [] → Children d = Some ch → SplitAttr d = Some a →
  GetAttrIndex using_ (Some a) = Some j →
  Prune os d using_ = Ok (with_children d None).
Proof.
  intros Hrows Hch Ha Hj.
  assert (DecomposeOnAttributeValues using_ a = Some ∅) as Hd.
  { unfold DecomposeOnAttributeValues. rewrite Hj, Hrows. simpl. by rewrite fmap_empty. }
  assert (∀ d0, Predict (os []) d0 using_ = Ok (predictions_of using_ [])) as Hp.
  { intros d0. unfold Predict, Predict_labels. by rewrite Hrows. }
  assert (gather (map_imap (λ k child, Some
            match (∅ : gmap string Instances) !! k with
            | None => Ok child
            | Some s => Prune (below k os) child s
            end) ch) = Ok ch) as Hg.
  { rewrite gather_ok_intro.
    + f_equal. apply map_eq. intros k. rewrite lookup_omap, map_lookup_imap.
      destruct (ch !! k); simpl; by rewrite ?lookup_empty.
    + intros k r. rewrite map_lookup_imap. destruct (ch !! k); simpl; [|done].
      rewrite lookup_empty. by intros [= <-]. }
  rewrite (Prune_rule os d using_ ch a ∅ ch _ _ Hch Ha Hd Hg (Hp _) (Hp _)).
  unfold computeAccuracy, GetConfusionMatrix, acc_lt. rewrite Hrows. done.
Qed.

Lemma prune_without_rows_witness :
  Prune Sample.prune_forwards Sample.tree Sample.no_validation
    = Ok (with_children Sample.tree None).
Proof.
  apply (prune_without_rows Sample.prune_forwards Sample.tree Sample.no_validation
           (default ∅ (Children Sample.tree)) Sample.A 0); reflexivity.
Defined.

Lemma acc_lt_asym a b : total a = total b → acc_lt a b = true → acc_lt b a = false.
Proof.
  unfold acc_lt. intros Ht. rewrite !andb_true_iff, !bool_decide_eq_true.
  intros [[? ?] ?]. rewrite <- Ht in *.
  repeat case_bool_decide; simpl; try done. nia.
Qed.

Lemma acc_lt_irrefl a : acc_lt a a = false.
Proof. unfold acc_lt. repeat case_bool_decide; simpl; try done. lia. Qed.

(** X12: at a node with children and a split attribute, the tree [Prune]
    returns is on the validation rows at least as accurate as the node
    collapsed to a leaf with its own label, whatever the rows are (both
    predicted with the iteration orders of the run). *)
Theorem prune_not_below_leaf os d using_ d' ch a :
  Children d = Some ch → SplitAttr d = Some a → Prune os d using_ = Ok d' →
  ∃ p' p0,
    Predict (os []) d' using_ = Ok p' ∧
    Predict (os []) (with_children d None) using_ = Ok p0 ∧
    acc_lt (computeAccuracy p' using_) (computeAccuracy p0 using_) = false.
Proof.
  intros Hch Ha Hp.
  apply Prune_cases in Hp as [[? _]|[[? _]|Hp]]; [congruence..|].
  destruct Hp as (ch' & a' & sub & pruned & p1 & p0 & _ & _ & _ & _ & Hp1 & Hp0 & ->).
  destruct (acc_lt (computeAccuracy p0 using_) (computeAccuracy p1 using_)) eqn:Hacc.
  - exists p1, p0. split_and!; try done. apply acc_lt_asym; [|done].
    by rewrite (computeAccuracy_total _ _ _ _ Hp0), (computeAccuracy_total _ _ _ _ Hp1).
  - exists p0, p0. split_and!; try done. apply acc_lt_irrefl.
Qed.

Lemma prune_not_below_leaf_witness :
  ∃ p' p0,
    Predict (Sample.prune_forwards []) (with_children Sample.tree None) Sample.validation
      = Ok p' ∧
    Predict (Sample.prune_forwards []) (with_children Sample.tree None) Sample.validation
      = Ok p0 ∧
    acc_lt (computeAccuracy p' Sample.validation) (computeAccuracy p0 Sample.validation) = false.
Proof.
  apply (prune_not_below_leaf Sample.prune_forwards Sample.tree Sample.validation
           (with_children Sample.tree None) (default ∅ (Children Sample.tree)) Sample.A).
  - reflexivity.
  - reflexivity.
  - vm_compute. reflexivity.
Defined.

(** ** The orchestrator and the ensemble *)

Lemma only_children_changed_nonempty d :
  ∀ d', only_children_changed d d' → children_nonempty d → children_nonempty d'.
Proof.
  induction d as [d IH] using node_children_ind. intros d' Hocc Hne.
  inversion Hocc as [? ? E1 E2 E3 E4 E5 Hkids]; subst.
  inversion Hne as [? Hd]; subst.
  constructor. intros ch' Hch'.
  destruct (Hkids ch' Hch') as (ch & Hch & Hrel).
  destruct (Hd ch Hch) as [Hnonempty Hsub].
  split.
  - destruct (map_choose ch Hnonempty) as (k & c & Hk).
    specialize (Hrel k). rewrite Hk in Hrel. intros ->.
    rewrite lookup_empty in Hrel. inversion Hrel.
  - intros k c' Hk. specialize (Hrel k). rewrite Hk in Hrel.
    inversion Hrel as [c ? Hcc' Hc|]; subst. symmetry in Hc.
    eapply (IH ch k c Hch Hc); [done|]. by eapply Hsub.
Qed.

Lemma Predict_total os d what :
  (∀ i n, is_order (os i n)) → children_nonempty d →
  ∃ p, Predict os d what = Ok p ∧ Rows p = Rows what.
Proof.
  intros Ho Hne. unfold Predict.
  destruct (Predict_labels_all_Ok os d what) as (labels & -> & Hlen).
  - intros i _.
    destruct (Predict_last_terminates (S (height d)) (os i) what i d 0) as (n & Hn & _);
      [done|done|lia|].
    exists (Class n). by rewrite Predict_loop_last, Hn.
  - eexists. split; [done|]. unfold Rows in *. simpl. by rewrite length_fmap.
Qed.

(** X13: after a [Fit] that returned, on a training part with at least one
    row, [Predict] returns predictions for any rows, one per row, whether
    the tree was pruned or not; [Fit] leaves the pruning ratio as it was. *)
Theorem fit_then_predict gen split io po os t on t' what :
  (0 < Rows (if prunes t then (split on (PruneSplit t)).1 else on))%nat →
  (∀ i n, is_order (os i n)) →
  Fit gen split io po t on = Ok t' →
  PruneSplit t' = PruneSplit t ∧
  ∃ p, ID3_Predict os t' what = Ok p ∧ Rows p = Rows what.
Proof.
  intros Hrows Ho. unfold Fit. destruct (prunes t).
  - destruct (split on (PruneSplit t)) as [trainData testData]. simpl in Hrows.
    intros H. apply bind_Ok in H as (root & Hroot & H).
    apply bind_Ok in H as (root' & Hprune & H). injection H as <-.
    split; [done|]. unfold ID3_Predict. simpl.
    apply Predict_total; [done|].
    eapply only_children_changed_nonempty; [by eapply Prune_only_children_changed|].
    by eapply InferID3Tree_children_nonempty.
  - intros H. apply bind_Ok in H as (root & Hroot & H). injection H as <-.
    split; [done|]. unfold ID3_Predict. simpl.
    apply Predict_total; [done|]. by eapply InferID3Tree_children_nonempty.
Qed.

#[warnings="-inexact-float"]
Lemma fit_then_predict_witness :
  PruneSplit (set_root (NewID3DecisionTree 0.25%float) (with_children Sample.tree None))
    = PruneSplit (NewID3DecisionTree 0.25%float) ∧
  ∃ p, ID3_Predict Sample.predict_backwards
         (set_root (NewID3DecisionTree 0.25%float) (with_children Sample.tree None))
         Sample.without_A = Ok p ∧
       Rows p = Rows Sample.without_A.
Proof.
  apply (fit_then_predict Sample.first_column (λ on _, (on, Sample.validation))
           Sample.forwards Sample.prune_forwards Sample.predict_backwards
           (NewID3DecisionTree 0.25%float) Sample.train).
  - vm_compute. lia.
  - intros i n. apply is_order_rev.
  - vm_compute. reflexivity.
Defined.

(** X14: a [Fit] of the forest that returned has trained the aggregator on
    as many fresh trees without pruning as the forest size says (none for a
    size of zero or less), whatever an earlier [Fit] left in [Model]; it
    keeps size and feature count, and [Predict] afterwards is the
    aggregator's prediction with the trained model. *)
Theorem forest_fit_then_predict bag_fit bag_predict f on f' :
  RandomForest_Fit bag_fit f on = Ok f' →
  ∃ m,
    bag_fit {| Models := replicate (Z.to_nat (ForestSize f)) (NewID3DecisionTree 0%float);
               RandomFeatures := Features f |} on = Ok m ∧
    ForestSize f' = ForestSize f ∧ Features f' = Features f ∧
    ∀ w, RandomForest_Predict bag_predict f' w = bag_predict m w.
Proof.
  unfold RandomForest_Fit, registered. intros H.
  apply bind_Ok in H as (m & Hm & H). injection H as <-.
  destruct (add_trees_models (Z.to_nat (ForestSize f))
              {| Models := []; RandomFeatures := Features f |}) as [Hmodels Hfeat].
  simpl in Hmodels, Hfeat.
  exists m. split_and!; try done.
  rewrite <- Hm. f_equal.
  destruct (add_trees _ _) as [ms rf]. simpl in *. by subst.
Qed.

Lemma forest_fit_then_predict_witness :
  ∃ m,
    (λ (b : BaggedModel) (_ : Instances), Ok b)
      {| Models := replicate (Z.to_nat (ForestSize (mkRandomForest (-1) 3 None)))
                     (NewID3DecisionTree 0%float);
         RandomFeatures := Features (mkRandomForest (-1) 3 None) |} Sample.train = Ok m ∧
    ForestSize (mkRandomForest (-1) 3 (Some (mkBaggedModel [] 3)))
      = ForestSize (mkRandomForest (-1) 3 None) ∧
    Features (mkRandomForest (-1) 3 (Some (mkBaggedModel [] 3)))
      = Features (mkRandomForest (-1) 3 None) ∧
    ∀ w, RandomForest_Predict (λ _ w, Ok w)
           (mkRandomForest (-1) 3 (Some (mkBaggedModel [] 3))) w = Ok w.
Proof.
  apply (forest_fit_then_predict (λ b _, Ok b) (λ _ w, Ok w)
           (mkRandomForest (-1) 3 None) Sample.train).
  reflexivity.
Defined.

(** ** Rendering *)

Example render_sample :
  String_ Sample.backwards Sample.tree =
    Ok ("Rule(A)" +:+ newline +:+ tab +:+ "x" +:+ newline +:+ tab +:+ "Leaf(0)"
        +:+ newline +:+ tab +:+ "y" +:+ newline +:+ tab +:+ "Rule(B)"
        +:+ newline +:+ tab +:+ tab +:+ "p" +:+ newline +:+ tab +:+ tab +:+ "Leaf(0)"
        +:+ newline +:+ tab +:+ tab +:+ "q" +:+ newline +:+ tab +:+ tab +:+ "Leaf(1)").
Proof. vm_compute. reflexivity. Qed.

Lemma String_compare_le_trans s1 s2 s3 :
  String.compare s1 s2 ≠ Gt → String.compare s2 s3 ≠ Gt → String.compare s1 s3 ≠ Gt.
Proof.
  revert s2 s3. induction s1 as [|c1 s1 IH]; intros [|c2 s2] [|c3 s3]; simpl; try done.
  destruct (Ascii.compare c1 c2) eqn:H12.
  - apply Ascii.compare_eq_iff in H12 as ->.
    destruct (Ascii.compare c2 c3) eqn:H23; [apply IH|done..].
  - destruct (Ascii.compare c2 c3) eqn:H23.
    + apply Ascii.compare_eq_iff in H23 as ->. by rewrite H12.
    + intros _ _. unfold Ascii.compare in *.
      apply N.compare_lt_iff in H12. apply N.compare_lt_iff in H23.
      pose proof (N.lt_trans _ _ _ H12 H23) as H13.
      apply N.compare_lt_iff in H13. by rewrite H13.
    + done.
  - done.
Qed.

#[global] Instance str_le_trans : Transitive str_le.
Proof.
  intros a b c. unfold str_le, String.leb.
  pose proof (String_compare_le_trans a b c).
  destruct (String.compare a b), (String.compare b c), (String.compare a c); try done;
    intros _ _; exfalso; by apply H.
Qed.

#[global] Instance str_le_total : Total str_le.
Proof. intros a b. apply String.leb_total. Qed.

#[global] Instance str_le_antisym : AntiSymm (=) str_le.
Proof. intros a b. apply String.leb_antisym. Qed.

(** What [sort.Strings] leaves of the iteration order: nothing. *)
Lemma sort_Strings_order (o o' : KeyOrder) l :
  is_order o → is_order o' → sort_Strings (o l) = sort_Strings (o' l).
Proof.
  intros Ho Ho'. unfold sort_Strings.
  apply (Sorted_unique str_le); try apply Sorted_merge_sort; try apply _.
  by rewrite !merge_sort_Permutation, (Ho l), (Ho' l).
Qed.

(** X15: the rendering does not depend on the order in which the maps are
    iterated: the keys of every node are sorted before its children are
    written. *)
Theorem render_any_order os os' d level :
  (∀ p, is_order (os p)) → (∀ p, is_order (os' p)) →
  getNestedString os d level = getNestedString os' d level.
Proof.
  revert os os' level. induction d as [d IH] using node_children_ind.
  intros os os' level Ho Ho'.
  destruct d as [ty [ch|] sa cd cl ca]; simpl; [|done].
  destruct sa as [a|]; simpl; [|done].
  unfold range_keys. rewrite (sort_Strings_order (os []) (os' []) _ (Ho _) (Ho' _)).
  assert (map_imap (λ k child, Some (getNestedString (below k os) child (S level))) ch
        = map_imap (λ k child, Some (getNestedString (below k os') child (S level))) ch)
    as ->; [|done].
  apply map_eq. intros k. rewrite !map_lookup_imap.
  destruct (ch !! k) as [c|] eqn:Hk; simpl; [|done]. f_equal.
  apply (IH ch k c eq_refl Hk); intros p; [apply Ho|apply Ho'].
Qed.

Lemma render_any_order_witness :
  getNestedString Sample.forwards Sample.tree 0 = getNestedString Sample.backwards Sample.tree 0.
Proof.
  apply (render_any_order Sample.forwards Sample.backwards Sample.tree 0).
  - intros p. apply is_order_id.
  - intros p. apply is_order_rev.
Defined.

Lemma render_fold_Ok (nested : gmap string (result string))
    (join : string → string → string → string) keys :
  (∀ k, k ∈ keys → ∃ s, nested !! k = Some (Ok s)) →
  ∀ b, ∃ s, foldl (λ buf k, b ← buf; s ← default Panic (nested !! k);
                            Ok (join b k s)) (Ok b) keys = Ok s.
Proof.
  induction keys as [|k keys IH]; intros Hk b; simpl; [eauto|].
  destruct (Hk k) as [s ->]; [by left|]. simpl.
  apply IH. intros k' Hk'. apply Hk. by right.
Qed.

Lemma splits_named_child d ch k c :
  splits_named d → Children d = Some ch → ch !! k = Some c → splits_named c.
Proof. intros Hd Hch Hk n Hn. apply Hd. by eapply in_tree_child. Qed.

Lemma render_Ok d :
  ∀ os level, (∀ p, is_order (os p)) → splits_named d →
  ∃ s, getNestedString os d level = Ok s.
Proof.
  induction d as [d IH] using node_children_ind. intros os level Ho Hd.
  pose proof (Hd d (in_tree_root d)) as Hroot.
  destruct d as [ty [ch|] sa cd cl ca]; simpl in *; [|eauto].
  destruct sa as [a|]; [|exfalso; by apply Hroot]. simpl.
  apply (render_fold_Ok _ (λ b k s,
           b +:+ newline +:+ tabs level +:+ tab +:+ k +:+ newline +:+ s)).
  intros k Hk. unfold sort_Strings in Hk. rewrite merge_sort_Permutation in Hk.
  apply range_keys_elem in Hk as [c Hc]; [|done].
  destruct (IH ch k c eq_refl Hc (below k os) (S level)) as [s Hs].
  - intros p. apply Ho.
  - by eapply (splits_named_child _ ch k c Hd).
  - exists s. by rewrite map_lookup_imap, Hc; simpl; rewrite Hs.
Qed.

Lemma only_children_changed_in_tree d :
  ∀ d' n', only_children_changed d d' → in_tree n' d' →
  ∃ n, in_tree n d ∧ SplitAttr n' = SplitAttr n ∧
       (Children n' ≠ None → Children n ≠ None).
Proof.
  induction d as [d IH] using node_children_ind. intros d' n' Hocc Hin.
  pose proof Hocc as Hocc'.
  inversion Hocc' as [? ? E1 E2 E3 E4 E5 Hkids]; subst.
  inversion Hin as [|? ch' k c' Hch' Hk Hin']; subst.
  - exists d. split_and!; [constructor|done|].
    intros Hne. destruct (Children d') as [ch'|] eqn:Hch'; [|done].
    destruct (Hkids ch' eq_refl) as (ch & -> & _). done.
  - destruct (Hkids ch' Hch') as (ch & Hch & Hrel).
    specialize (Hrel k). rewrite Hk in Hrel.
    inversion Hrel as [c ? Hcc' Hc|]; subst. symmetry in Hc.
    destruct (IH ch k c Hch Hc c' n' Hcc' Hin') as (n & Hn & Hs & Hc2).
    exists n. split_and!; try done. by eapply in_tree_child.
Qed.

(** X16: rendering a tree that [InferID3Tree] returned, also after [Prune],
    returns a string: no node with children is without the split attribute
    whose name is written. *)
Theorem render_induced ios from g t po using_ t' ros level :
  InferID3Tree ios from g = Ok t → Prune po t using_ = Ok t' →
  (∀ p, is_order (ros p)) →
  (∃ s, getNestedString ros t level = Ok s) ∧ (∃ s, getNestedString ros t' level = Ok s).
Proof.
  intros Ht Hp Ho.
  assert (splits_named t) as Hnamed.
  { intros n Hn Hch. destruct (InferID3Tree_rec_node_ok _ _ _ _ _ _ Ht Hn) as [[_ Hiff] _].
    intros Hs. by apply Hch, Hiff. }
  split; [by apply render_Ok|]. apply render_Ok; [done|].
  intros n' Hn' Hch'.
  destruct (only_children_changed_in_tree t t' n' (Prune_only_children_changed _ _ _ _ Hp) Hn')
    as (n & Hn & -> & Hc).
  apply Hnamed; [done|]. by apply Hc.
Qed.

Lemma render_induced_witness :
  (∃ s, getNestedString Sample.backwards Sample.tree 0 = Ok s) ∧
  (∃ s, getNestedString Sample.backwards (with_children Sample.tree None) 0 = Ok s).
Proof.
  apply (render_induced Sample.forwards Sample.train Sample.first_column Sample.tree
           Sample.prune_forwards Sample.validation).
  - vm_compute. reflexivity.
  - vm_compute. reflexivity.
  - intros p. apply is_order_rev.
Defined.

(** ** Empty partitions *)

(** X17: from a partition without rows the induction returns a node with
    the empty label and an empty histogram; when the generator names a
    column the node gets a children map that is not nil and has no child. *)
Theorem induced_from_no_rows os from g t :
  storage from = [] → InferID3Tree os from g = Ok t →
  Class t = EmptyString ∧ ClassDist t = ∅ ∧
  (GetAttributeCount from ≠ 2 → g from ≠ None → Children t = Some ∅).
Proof.
  intros Hrows Ht. unfold InferID3Tree in Ht.
  assert (CountClassValues from = ∅) as He by (unfold CountClassValues; by rewrite Hrows).
  apply InferID3Tree_rec_cases in Ht as (Hdist & _ & Hc).
  rewrite He in *. rewrite map_size_empty in Hc.
  destruct Hc as [(? & _)|(_ & -> & Hc)]; [done|].
  split_and!; [by apply maxClass_empty|done|]. intros Hcount Hg.
  destruct Hc as [(? & _)|[(_ & ? & _)|Hc]]; [done..|].
  destruct Hc as (_ & _ & a & sub & ch & _ & Hd & Hgather & -> & _). f_equal.
  apply map_eq. intros k. rewrite lookup_empty.
  pose proof (gather_imap_lookup _ _ _ k Hgather) as Hl.
  destruct (sub !! k) as [s|] eqn:Hs; [|done].
  destruct (Decompose_lookup _ _ _ _ _ Hd Hs) as (j & _ & Hne & _).
  by rewrite Hrows in Hne.
Qed.

Lemma induced_from_no_rows_witness :
  Class Sample.hollow = EmptyString ∧ ClassDist Sample.hollow = ∅ ∧
  (GetAttributeCount Sample.no_rows ≠ 2 → Sample.first_column Sample.no_rows ≠ None →
   Children Sample.hollow = Some ∅).
Proof.
  apply (induced_from_no_rows Sample.forwards Sample.no_rows Sample.first_column).
  - reflexivity.
  - vm_compute. reflexivity.
Defined.
